(** * A shallow embedding of the download orchestration of stac-asset

    The model follows [stac_asset/_functions.py] ([Download], [Downloads],
    [download_asset], [get_absolute_asset_href], [assert_asset_exists],
    [asset_exists]), [stac_asset/config.py] ([Config.validate]) and
    [stac_asset/functions.py] ([guess_client_class_from_href]).

    Asynchronous tasks are modelled by an explicit scheduler: the
    interleaving of task events is an input of the orchestrator, so the
    properties proved for it hold for every interleaving. *)

From Stdlib Require Import String Ascii List Bool Arith Lia.
Import ListNotations.
#[local] Set Warnings "-register-all".
Open Scope string_scope.

(** ** Strings *)

Module Str.

Fixpoint rev_chars (s : string) (acc : list ascii) : list ascii :=
    match s with
    | EmptyString => acc
    | String c s' => rev_chars s' (c :: acc)
    end.

Definition chars (s : string) : list ascii := List.rev (rev_chars s []).

Definition of_chars (l : list ascii) : string := string_of_list_ascii l.

  (** [s.endswith(suffix)] *)
Definition endswith (s suffix : string) : bool :=
    String.prefix (of_chars (rev_chars suffix [])) (of_chars (rev_chars s [])).

  (** [s.startswith(p)] *)
Definition startswith (s p : string) : bool := String.prefix p s.

  (** The part of [l] after the last occurrence of [c] (all of [l] when [c]
      does not occur). *)
Fixpoint after_last (c : ascii) (l : list ascii) (cur : list ascii) : list ascii :=
    match l with
    | [] => List.rev cur
    | x :: l' => if Ascii.eqb x c then after_last c l' [] else after_last c l' (x :: cur)
    end.

  (** [l.split(c, 1)]: the part before the first [c] and the rest, if any. *)
Fixpoint split_first (c : ascii) (l : list ascii) : list ascii * option (list ascii) :=
    match l with
    | [] => ([], None)
    | x :: l' =>
        if Ascii.eqb x c then ([], Some l')
        else let '(a, b) := split_first c l' in (x :: a, b)
    end.

  (** [l.split("://", 1)] *)
Fixpoint split_scheme (l : list ascii) : option (list ascii * list ascii) :=
    match l with
    | ":"%char :: "/"%char :: "/"%char :: rest => Some ([], rest)
    | x :: l' =>
        match split_scheme l' with
        | Some (a, b) => Some (x :: a, b)
        | None => None
        end
    | [] => None
    end.

  (** Position of the last [c] in [l] (the [str.rfind] of Python, -1 as
      [None]). *)
Fixpoint rfind_from (c : ascii) (l : list ascii) (i : nat) (best : option nat) : option nat :=
    match l with
    | [] => best
    | x :: l' => rfind_from c l' (S i) (if Ascii.eqb x c then Some i else best)
    end.

Definition rfind (c : ascii) (l : list ascii) : option nat := rfind_from c l 0 None.

End Str.

(** ** Errors and results *)

(** The exceptions raised by the modelled code. [ClientError] stands for any
    exception raised by a client while talking to a backend. *)
Inductive Error : Type :=
| ConfigError (msg : string)
| AssetOverwriteError (hrefs : list string)
| ValueError (msg : string)
| FileNotFoundError (msg : string)
| STACError (msg : string)
| ClientError (msg : string)
| DownloadError (exceptions : list Error).

Inductive result (A : Type) : Type :=
| Ok (a : A)
| Err (e : Error).
Arguments Ok {A} a.
Arguments Err {A} e.

Definition bind {A B} (m : result A) (k : A -> result B) : result B :=
  match m with
  | Ok a => k a
  | Err e => Err e
  end.

Notation "x <- m ;; k" := (bind m (fun x => k))
  (at level 61, m at next level, right associativity).

(** ** Configuration ([stac_asset/config.py], [stac_asset/strategy.py]) *)

Inductive FileNameStrategy := FILE_NAME | KEY.
Inductive ErrorStrategy := DELETE | KEEP.

Record Config := mkConfig {
  alternate_assets : list string;
  file_name_strategy : FileNameStrategy;
  warn : bool;
  fail_fast : bool;
  error_strategy : ErrorStrategy;
  exclude : list string;
  include : list string;
  make_directory : bool;
  clean : bool;
  overwrite : bool;
  client_override : option string
}.

(** [Config()] *)
Definition default_config : Config :=
  mkConfig [] FILE_NAME false false DELETE [] [] true true false None.

(** Python truthiness of a list. *)
Definition truthy {A} (l : list A) : bool :=
  match l with [] => false | _ => true end.

(** [Config.validate] *)
Definition validate (c : Config) : result unit :=
  if truthy (include c) && truthy (exclude c) then
    Err (ConfigError "cannot provide both include and exclude")
  else if warn c && fail_fast c then
    Err (ConfigError "cannot warn and fail fast as the same time")
  else Ok tt.

(** ** URLs ([yarl.URL]) and paths ([os.path], [pathlib])

    [URL href] splits an href into scheme, host and path the way [yarl]
    does for the hrefs handled here: [scheme://[user@]host[:port]/path?query]
    or a plain path without scheme or host.  An absent host is the empty
    string (falsy in Python). *)

Record Url := mkUrl { scheme : string; host : string; url_path : string }.

Definition strip_query (l : list ascii) : list ascii :=
  fst (Str.split_first "#"%char (fst (Str.split_first "?"%char l))).

Definition URL (href : string) : Url :=
  match Str.split_scheme (Str.chars href) with
  | None => mkUrl "" "" (Str.of_chars (strip_query (Str.chars href)))
  | Some (sch, rest) =>
      let '(authority, p) := Str.split_first "/"%char rest in
      let hostport := Str.after_last "@"%char authority [] in
      let h := fst (Str.split_first ":"%char hostport) in
      let path := match p with
                  | None => ""
                  | Some p' => "/" ++ Str.of_chars (strip_query p')
                  end in
      mkUrl (Str.of_chars sch) (Str.of_chars h) path
  end.

(** [os.path.basename] *)
Definition basename (p : string) : string :=
  Str.of_chars (Str.after_last "/"%char (Str.chars p) []).

(** [os.path.dirname] *)
Definition dirname (p : string) : string :=
  let l := Str.chars p in
  match Str.rfind "/"%char l with
  | None => ""
  | Some 0 => "/"
  | Some i => Str.of_chars (firstn i l)
  end.

(** [Path(p).suffix]: from the last dot of the last component, unless the
    dot starts or ends the name. *)
Definition path_suffix (p : string) : string :=
  let name := Str.after_last "/"%char (Str.chars p) [] in
  match Str.rfind "."%char name with
  | Some i => if Nat.ltb 0 i && Nat.ltb i (Nat.sub (List.length name) 1) then Str.of_chars (skipn i name) else ""
  | None => ""
  end.

(** [os.path.isabs] *)
Definition isabs (p : string) : bool := Str.startswith p "/".

(** [str(root / name)] for a [pathlib.Path] [root] already in normal form:
    an absolute [name] replaces the root, an empty one leaves it. *)
Definition path_join (root name : string) : string :=
  if isabs name then name
  else if String.eqb name "" then root
  else if String.eqb root "" || String.eqb root "." then name
  else if Str.endswith root "/" then root ++ name
  else root ++ "/" ++ name.

(** [pystac.utils.is_absolute_href] *)
Definition is_absolute_href (href : string) : bool :=
  let u := URL href in
  (negb (String.eqb (scheme u) "") && negb (String.eqb (scheme u) "file"))
  || isabs (url_path u).

(** [pystac.utils.make_absolute_href(href, start_href, start_is_dir=False)];
    without a start href, the current directory [cwd] is the start. *)
Definition make_absolute_href (href : string) (start_href : option string) (cwd : string) : string :=
  if is_absolute_href href then href
  else match start_href with
       | Some s => path_join (dirname s) href
       | None => path_join cwd href
       end.

(** ** Client classes and their selection *)

Inductive ClientClass :=
| FilesystemClient
| S3Client
| PlanetaryComputerClient
| HttpClient.

Definition ClientClass_eqb (a b : ClientClass) : bool :=
  match a, b with
  | FilesystemClient, FilesystemClient | S3Client, S3Client
  | PlanetaryComputerClient, PlanetaryComputerClient | HttpClient, HttpClient => true
  | _, _ => false
  end.

(** The [name] class attributes of the clients. *)
Definition client_name (c : ClientClass) : string :=
  match c with
  | FilesystemClient => "filesystem"
  | S3Client => "s3"
  | PlanetaryComputerClient => "planetary-computer"
  | HttpClient => "http"
  end.

Definition all_client_classes : list ClientClass :=
  [FilesystemClient; S3Client; PlanetaryComputerClient; HttpClient].

(** [guess_client_class_from_href] ([stac_asset/functions.py]), on the
    parsed URL. *)
Definition guess_client_class_from_url (url : Url) : result ClientClass :=
  if String.eqb (host url) "" then Ok FilesystemClient
  else if String.eqb (scheme url) "s3" then Ok S3Client
  else if Str.endswith (host url) "blob.core.windows.net" then Ok PlanetaryComputerClient
  else if String.eqb (scheme url) "http" || String.eqb (scheme url) "https" then Ok HttpClient
  else Err (ValueError "could not guess client class for href").

Definition guess_client_class_from_href (href : string) : result ClientClass :=
  guess_client_class_from_url (URL href).

(** Modelled from the spec: the explicit override of the client registry
    ([Clients.get_client], whose source is not part of the tree), which the
    spec evaluates before the href-based guess: a [client_override] naming a
    client class selects that class; a name of no client class cannot
    determine a backend. *)
Definition client_class_of_name (n : string) : option ClientClass :=
  find (fun c => String.eqb (client_name c) n) all_client_classes.

Definition get_client_class (config : Config) (href : string) : result ClientClass :=
  match client_override config with
  | Some n =>
      match client_class_of_name n with
      | Some c => Ok c
      | None => Err (ConfigError "cannot determine backend for URI")
      end
  | None => guess_client_class_from_href href
  end.

(** ** Assets and their owners ([pystac.Asset], [pystac.Item]) *)

(** The value under the ["alternate"] key of an asset's extra fields: a dict
    of alternate name to alternate definition (itself a dict of fields), or
    any other JSON value. *)
Inductive AltValue :=
| AltDict (entries : list (string * list (string * string)))
| AltOther.

Record Asset := mkAsset {
  href : string;
  alternate : option AltValue
}.

Definition set_href (a : Asset) (h : string) : Asset := mkAsset h (alternate a).

(** An item or collection: its id, its self href and its asset dict (in
    insertion order, keys unique). *)
Record Owner := mkOwner {
  owner_id : string;
  self_href : option string;
  assets : list (string * Asset)
}.

Definition set_assets (o : Owner) (l : list (string * Asset)) : Owner :=
  mkOwner (owner_id o) (self_href o) l.

Definition set_self_href (o : Owner) (s : option string) : Owner :=
  mkOwner (owner_id o) s (assets o).

Fixpoint lookup {A} (k : string) (l : list (string * A)) : option A :=
  match l with
  | [] => None
  | (k', v) :: l' => if String.eqb k k' then Some v else lookup k l'
  end.

(** [d[k] = f(d[k])] for a key present in the dict. *)
Fixpoint update {A} (k : string) (f : A -> A) (l : list (string * A)) : list (string * A) :=
  match l with
  | [] => []
  | (k', v) :: l' => if String.eqb k k' then (k', f v) :: l' else (k', v) :: update k f l'
  end.

(** [del d[k]] *)
Fixpoint remove_key {A} (k : string) (l : list (string * A)) : list (string * A) :=
  match l with
  | [] => []
  | (k', v) :: l' => if String.eqb k k' then l' else (k', v) :: remove_key k l'
  end.

Definition mem (s : string) (l : list string) : bool := existsb (String.eqb s) l.

(** [Asset.get_absolute_href] *)
Definition asset_get_absolute_href (asset : Asset) (start : option string) (cwd : string)
  : option string :=
  if is_absolute_href (href asset) then Some (href asset)
  else match start with
       | Some s => Some (make_absolute_href (href asset) (Some s) cwd)
       | None => None
       end.

(** The loop of [get_absolute_asset_href] over the preferred alternate
    names: [None] when no name is in the alternate dict. *)
Fixpoint pick_alternate (names : list string) (alt : list (string * list (string * string)))
  (start : option string) (cwd : string) : option (result string) :=
  match names with
  | [] => None
  | n :: rest =>
      match lookup n alt with
      | Some entry =>
          match lookup "href" entry with
          | Some h => Some (Ok (make_absolute_href h start cwd))
          | None => Some (Err (ValueError "invalid alternate asset definition (missing href)"))
          end
      | None => pick_alternate rest alt start cwd
      end
  end.

(** [get_absolute_asset_href] ([stac_asset/_functions.py]); [start] is the
    self href of the asset's owner. *)
Definition get_absolute_asset_href (asset : Asset) (alternate_assets : list string)
  (start : option string) (cwd : string) : result (option string) :=
  let alt := match alternate asset with
             | Some (AltDict d) => d
             | _ => []
             end in
  if truthy alt && truthy alternate_assets then
    match pick_alternate alternate_assets alt start cwd with
    | Some (Ok h) => Ok (Some h)
    | Some (Err e) => Err e
    | None => Ok (asset_get_absolute_href asset start cwd)
    end
  else Ok (asset_get_absolute_href asset start cwd).

(** ** [Downloads.add] *)

(** A [Download]: the key, the asset object (the same object as the
    owner's entry under that key) and the destination path.  The owner and
    the config are those of the enclosing [Downloads]. *)
Record Download := mkDownload {
  dl_key : string;
  dl_asset : Asset;
  dl_path : string
}.

(** [make_asset_hrefs_absolute] ([stac_asset/_functions.py]) *)
Definition make_asset_hrefs_absolute (o : Owner) (cwd : string) : result Owner :=
  let fix go (l : list (string * Asset)) : result (list (string * Asset)) :=
    match l with
    | [] => Ok []
    | (k, a) :: l' =>
        if is_absolute_href (href a) then
          rest <- go l' ;; Ok ((k, a) :: rest)
        else match self_href o with
             | None => Err (STACError "Cannot make asset HREFs absolute if no self_href is set.")
             | Some s =>
                 rest <- go l' ;;
                 Ok ((k, set_href a (make_absolute_href (href a) (Some s) cwd)) :: rest)
             end
    end in
  l <- go (assets o) ;; Ok (set_assets o l).

(** [make_asset_hrefs_relative] ([stac_asset/_functions.py]), over
    [pystac.utils.make_relative_href], which is a parameter. *)
Section Relative.
Variable make_relative_href : string -> string -> string.

Definition make_asset_hrefs_relative (o : Owner) : result Owner :=
  let fix go (l : list (string * Asset)) : result (list (string * Asset)) :=
    match l with
    | [] => Ok []
    | (k, a) :: l' =>
        if is_absolute_href (href a) then
          match self_href o with
          | None => Err (STACError "Cannot make asset HREFs relative if no self_href is set.")
          | Some s =>
              rest <- go l' ;;
              Ok ((k, set_href a (make_relative_href (href a) s)) :: rest)
          end
        else rest <- go l' ;; Ok ((k, a) :: rest)
    end in
  l <- go (assets o) ;; Ok (set_assets o l).

End Relative.

(** The filter of the asset loop of [Downloads.add]. *)
Definition in_scope (config : Config) (k : string) : bool :=
  (negb (truthy (include config)) || mem k (include config))
  && (negb (truthy (exclude config)) || negb (mem k (exclude config))).

(** The file name an asset is saved under. *)
Definition asset_file_name (config : Config) (k : string) (a : Asset) : string :=
  match file_name_strategy config with
  | FILE_NAME => basename (url_path (URL (href a)))
  | KEY => k ++ path_suffix (href a)
  end.

(** The loop of [Downloads.add]: [seen] is [asset_file_names] (in insertion
    order), the result the kept assets and the new downloads. *)
Fixpoint add_loop (config : Config) (root : string) (seen : list string)
  (l : list (string * Asset)) : result (list (string * Asset) * list Download) :=
  match l with
  | [] => Ok ([], [])
  | (k, a) :: l' =>
      if in_scope config k then
        let name := asset_file_name config k a in
        if mem name seen then Err (AssetOverwriteError seen)
        else
          r <- add_loop config root (List.app seen [name]) l' ;;
          let '(kept, dls) := r in
          Ok ((k, a) :: kept, mkDownload k a (path_join root name) :: dls)
      else add_loop config root seen l'
  end.

(** [Downloads.add(stac_object, root, file_name, keep_non_downloaded)]:
    the owner after the call and the downloads appended. *)
Definition add (config : Config) (o : Owner) (root : string) (file_name : option string)
  (keep_non_downloaded : bool) (cwd : string) : result (Owner * list Download) :=
  o1 <- make_asset_hrefs_absolute o cwd ;;
  let o2 := set_self_href o1 (match file_name with
                              | Some f => if String.eqb f "" then None else Some (path_join root f)
                              | None => None
                              end) in
  r <- add_loop config root [] (assets o2) ;;
  let '(kept, dls) := r in
  Ok (if keep_non_downloaded then o2 else set_assets o2 kept, dls).

(** The names computed for the in-scope assets, in iteration order. *)
Definition in_scope_names (config : Config) (l : list (string * Asset)) : list string :=
  map (fun '(k, a) => asset_file_name config k a)
      (filter (fun '(k, _) => in_scope config k) l).

(** ** The world a batch acts on

    The local file system (file contents by path, and directories), the
    hrefs requested from a backend in order (the network I/O), the optional
    message queue, and the owner whose asset dict the downloads rewrite. *)

Inductive Message :=
| StartAssetDownload (key href path : string)
| ErrorAssetDownload (key href path : string) (error : Error)
| SkipAssetDownload (key path : string)
| FinishAssetDownload (key href path : string).

Record World := mkWorld {
  files : list (string * string);
  dirs : list string;
  net : list string;
  msgs : option (list Message);
  owner : Owner
}.

(** The behaviour of the backends: the bytes a client class serves for an
    href or the exception it raises, the outcome of its existence check
    ([Client.assert_href_exists]); and the working directory. *)
Record Env := mkEnv {
  remote : ClientClass -> string -> result string;
  href_exists : ClientClass -> string -> result unit;
  cwd : string
}.

Definition with_files (w : World) (f : list (string * string)) : World :=
  mkWorld f (dirs w) (net w) (msgs w) (owner w).
Definition with_dirs (w : World) (d : list string) : World :=
  mkWorld (files w) d (net w) (msgs w) (owner w).
Definition with_net (w : World) (n : list string) : World :=
  mkWorld (files w) (dirs w) n (msgs w) (owner w).
Definition with_owner (w : World) (o : Owner) : World :=
  mkWorld (files w) (dirs w) (net w) (msgs w) o.

(** [await messages.put(m)] when a queue is given. *)
Definition put_msg (m : Message) (w : World) : World :=
  mkWorld (files w) (dirs w) (net w)
    (match msgs w with Some q => Some (List.app q [m]) | None => None end) (owner w).

(** [os.path.exists(path)] *)
Definition path_exists (w : World) (p : string) : bool :=
  match lookup p (files w) with Some _ => true | None => mem p (dirs w) end.

(** Writing and unlinking a file. *)
Definition write_file (w : World) (p contents : string) : World :=
  with_files w ((p, contents) :: remove_key p (files w)).
Definition unlink (w : World) (p : string) : World :=
  with_files w (remove_key p (files w)).

(** [asset.href = str(path)] on the owner's entry. *)
Definition rewrite_href (w : World) (k p : string) : World :=
  with_owner w (set_assets (owner w) (update k (fun a => set_href a p) (assets (owner w)))).

(** [Client.download_href(href, path, clean)]: the file is opened for
    writing (truncated), the backend is asked for the href, and on failure
    the file is removed when [clean] is set. *)
Definition download_href (env : Env) (c : ClientClass) (href : string) (path : string)
  (clean : bool) (w : World) : result unit * World :=
  let w1 := write_file (with_net w (List.app (net w) [href])) path "" in
  match remote env c href with
  | Ok contents => (Ok tt, write_file w1 path contents)
  | Err e => (Err e, if clean then unlink w1 path else w1)
  end.

(** [download_asset] ([stac_asset/_functions.py]). *)
Definition download_asset (env : Env) (config : Config) (key : string) (asset : Asset)
  (path : string) (w : World) : result unit * World :=
  let parent := dirname path in
  let mk := if mem parent (dirs w) then Ok w
            else if make_directory config then Ok (with_dirs w (List.app (dirs w) [parent]))
            else Err (FileNotFoundError "output directory does not exist") in
  match mk with
  | Err e => (Err e, w)
  | Ok w0 =>
      match get_absolute_asset_href asset (alternate_assets config)
              (self_href (owner w0)) (cwd env) with
      | Err e => (Err e, w0)
      | Ok None => (Err (ValueError "asset does not have an absolute href"), w0)
      | Ok (Some h) =>
          match get_client_class config h with
          | Err e => (Err e, w0)
          | Ok c =>
              let w1 := put_msg (StartAssetDownload key h path) w0 in
              match download_href env c h path (clean config) w1 with
              | (Err e, w2) => (Err e, put_msg (ErrorAssetDownload key h path e) w2)
              | (Ok _, w2) =>
                  (Ok tt, put_msg (FinishAssetDownload key h path) (rewrite_href w2 key path))
              end
          end
      end
  end.

(** What [Download.download] hands back to its caller: the download
    itself, a [WrappedError], or an exception raised out of it. *)
Inductive TaskResult :=
| Returned (d : Download)
| Wrapped (d : Download) (error : Error)
| Raised (error : Error).

(** [Download.download] *)
Definition download_one (env : Env) (config : Config) (d : Download) (w : World)
  : TaskResult * World :=
  if negb (path_exists w (dl_path d)) || overwrite config then
    match download_asset env config (dl_key d) (dl_asset d) (dl_path d) w with
    | (Err e, w') => if fail_fast config then (Raised e, w') else (Wrapped d e, w')
    | (Ok _, w') => (Returned d, rewrite_href w' (dl_key d) (dl_path d))
    end
  else (Returned d, rewrite_href (put_msg (SkipAssetDownload (dl_key d) (dl_path d)) w)
                      (dl_key d) (dl_path d)).

(** ** [Downloads.download] and [Downloads.download_with_lock]

    Each download runs as an asyncio task guarded by the semaphore.  A task
    is [Pending] until it acquires the semaphore, [Running] while it holds a
    slot (the download is in flight), then [Done] with its result, or
    [Cancelled].  The scheduler chooses the order of the task events:
    - [Acquire i]: task [i] takes a slot ([await self.semaphore.acquire()]),
      which it can only do while the semaphore's value is positive;
    - [Complete i]: task [i] runs [Download.download] and leaves the
      [try]/[finally], releasing its slot;
    - [Wake]: the orchestrator, suspended in [asyncio.gather] over the tasks,
      resumes.  [gather] records the first exception raised by a task; the
      orchestrator then cancels every task that is not done, waits for the
      cancellations (which release the slots held by the cancelled tasks in
      their [finally]) and re-raises that exception.  When every task is
      done and none raised, [gather] returns the results and the
      orchestrator handles the [WrappedError]s. *)

Inductive TState :=
| Pending
| Running
| Done (r : TaskResult)
| Cancelled.

Record Batch := mkBatch {
  tstates : list TState;
  sem : nat;
  world : World;
  gather_error : option Error;
  completed : list nat
}.

Inductive Event :=
| Acquire (i : nat)
| Complete (i : nat)
| Wake.

Fixpoint set_nth {A} (l : list A) (i : nat) (x : A) : list A :=
  match l, i with
  | [], _ => []
  | _ :: l', 0 => x :: l'
  | y :: l', S i' => y :: set_nth l' i' x
  end.

Definition is_running (t : TState) : bool :=
  match t with Running => true | _ => false end.

Definition is_done (t : TState) : bool :=
  match t with Done _ => true | _ => false end.

(** The downloads in flight: the tasks holding a semaphore slot. *)
Definition in_flight (b : Batch) : nat := length (filter is_running (tstates b)).

Definition acquire (i : nat) (b : Batch) : Batch :=
  match nth_error (tstates b) i with
  | Some Pending =>
      if Nat.ltb 0 (sem b) then
        mkBatch (set_nth (tstates b) i Running) (pred (sem b)) (world b)
          (gather_error b) (completed b)
      else b
  | _ => b
  end.

Definition complete (env : Env) (config : Config) (dls : list Download) (i : nat) (b : Batch)
  : Batch :=
  match nth_error (tstates b) i, nth_error dls i with
  | Some Running, Some d =>
      let '(r, w') := download_one env config d (world b) in
      mkBatch (set_nth (tstates b) i (Done r)) (S (sem b)) w'
        (match gather_error b, r with
         | None, Raised e => Some e
         | g, _ => g
         end)
        (List.app (completed b) [i])
  | _, _ => b
  end.

(** [task.cancel()] on every task that is not done, then
    awaiting [asyncio.gather] over the tasks with [return_exceptions=True]: each running
    task releases its slot in its [finally]. *)
Definition cancel_task (t : TState) : TState :=
  match t with
  | Pending | Running => Cancelled
  | t => t
  end.

Definition cancel_all (b : Batch) : Batch :=
  mkBatch (map cancel_task (tstates b)) (sem b + in_flight b) (world b)
    (gather_error b) (completed b).

(** The loop over the results of [gather]: [WrappedError]s delete their
    asset under [ErrorStrategy.DELETE], and are warned about or collected
    according to [warn].  Returns the owner, the warnings and the
    collected exceptions. *)
Fixpoint handle_results (config : Config) (rs : list TaskResult) (o : Owner)
  : Owner * list Error * list Error :=
  match rs with
  | [] => (o, [], [])
  | Wrapped d e :: rs' =>
      let o1 := match error_strategy config with
                | DELETE => set_assets o (remove_key (dl_key d) (assets o))
                | KEEP => o
                end in
      let '(o2, ws, es) := handle_results config rs' o1 in
      if warn config then (o2, e :: ws, es) else (o2, ws, e :: es)
  | _ :: rs' => handle_results config rs' o
  end.

Definition done_results (ts : list TState) : list TaskResult :=
  flat_map (fun t => match t with Done r => [r] | _ => [] end) ts.

Inductive Outcome :=
| Finished (r : result unit) (warnings : list Error) (b : Batch)
| Aborted (e : Error) (b : Batch)
| Blocked (b : Batch).

(** After [gather] returned: handle the results, then
    [raise DownloadError(exceptions)] if any were collected. *)
Definition finish (config : Config) (b : Batch) : Outcome :=
  let '(o', ws, es) := handle_results config (done_results (tstates b)) (owner (world b)) in
  let b' := mkBatch (tstates b) (sem b) (with_owner (world b) o') (gather_error b) (completed b) in
  match es with
  | [] => Finished (Ok tt) ws b'
  | _ => Finished (Err (DownloadError es)) ws b'
  end.

(** [gather] returns when every task is done and none raised. *)
Definition settled (b : Batch) : bool :=
  match gather_error b with
  | None => forallb is_done (tstates b)
  | Some _ => false
  end.

Fixpoint run (env : Env) (config : Config) (dls : list Download) (sched : list Event)
  (b : Batch) : Outcome :=
  if settled b then finish config b
  else match sched with
       | [] => Blocked b
       | Acquire i :: sched' => run env config dls sched' (acquire i b)
       | Complete i :: sched' => run env config dls sched' (complete env config dls i b)
       | Wake :: sched' =>
           match gather_error b with
           | Some e => Aborted e (cancel_all b)
           | None => run env config dls sched' b
           end
       end.

(** [Downloads(config, max_concurrent_downloads=n)] followed by
    [Downloads.download]: every task pending, the semaphore at [n]. *)
Definition init_batch (n : nat) (dls : list Download) (w : World) : Batch :=
  mkBatch (repeat Pending (length dls)) n w None [].

Definition downloads_download (env : Env) (config : Config) (n : nat) (dls : list Download)
  (sched : list Event) (w : World) : Outcome :=
  run env config dls sched (init_batch n dls w).

(** [download_item] / [download_collection] up to saving the owner:
    [Downloads.__init__] validates the config, [Downloads.add] plans the
    downloads for the owner held by the world, [Downloads.download] runs
    them.  An exception before the downloads start leaves the world as it
    was. *)
Inductive BatchResult :=
| Rejected (e : Error) (w : World)
| Ran (o : Outcome).

Definition download_owner (env : Env) (config : Config) (n : nat) (root : string)
  (file_name : option string) (keep_non_downloaded : bool) (sched : list Event) (w : World)
  : BatchResult :=
  match validate config with
  | Err e => Rejected e w
  | Ok _ =>
      match add config (owner w) root file_name keep_non_downloaded (cwd env) with
      | Err e => Rejected e w
      | Ok (o', dls) => Ran (downloads_download env config n dls sched (with_owner w o'))
      end
  end.

(** ** [assert_asset_exists] and [asset_exists] *)

(** [assert_asset_exists(asset, config)]: [start] is the self href of the
    asset's owner, [None] for the config means [Config()]. *)
Definition assert_asset_exists (env : Env) (asset : Asset) (start : option string)
  (config : option Config) : result unit :=
  let config := match config with Some c => c | None => default_config end in
  h <- get_absolute_asset_href asset (alternate_assets config) start (cwd env) ;;
  match h with
  | Some h =>
      c <- get_client_class config h ;;
      href_exists env c h
  | None => Err (ValueError "asset does not have an absolute href")
  end.

(** [asset_exists]: [try: await assert_asset_exists(...) except Exception:
    return False else: return True]. *)
Definition asset_exists (env : Env) (asset : Asset) (start : option string)
  (config : option Config) : bool :=
  match assert_asset_exists env asset start config with
  | Ok _ => true
  | Err _ => false
  end.

(** The assets of [l] the asset loop of [Downloads.add] keeps. *)
Definition scoped (config : Config) (l : list (string * Asset)) : list (string * Asset) :=
  filter (fun '(k, _) => in_scope config k) l.

(** The schedule where each task in turn takes its slot and completes, then
    [gather] is woken. *)
Definition one_by_one (m : nat) : list Event :=
  List.app (flat_map (fun i => [Acquire i; Complete i]) (seq 0 m)) [Wake].

(** * Properties *)

(** ** Configuration validation *)

Lemma truthy_nil {A} (l : list A) : truthy l = false <-> l = [].
Proof. destruct l; simpl; split; congruence. Qed.

(** C9: a config with both a non-empty include and a non-empty exclude
    list, or with both [warn] and [fail_fast], is rejected by
    [Config.validate] with a [ConfigError], and a batch built on it stops in
    [Downloads.__init__] with the world untouched (no file, no request, no
    message); any other config passes validation. *)
Theorem validate_config_error (c : Config) :
  (((include c <> [] /\ exclude c <> []) \/ (warn c = true /\ fail_fast c = true)) ->
   exists msg, validate c = Err (ConfigError msg) /\
     forall env n root file_name keep sched w,
       download_owner env c n root file_name keep sched w = Rejected (ConfigError msg) w)
  /\
  (~ ((include c <> [] /\ exclude c <> []) \/ (warn c = true /\ fail_fast c = true)) ->
   validate c = Ok tt).
Proof.
  split.
  - intros H.
    assert (Hv : exists msg, validate c = Err (ConfigError msg)).
    { unfold validate.
      destruct H as [[Hi He] | [Hw Hf]].
      + destruct (include c); [congruence|]. destruct (exclude c); [congruence|].
        simpl. eexists; reflexivity.
      + rewrite Hw, Hf. destruct (truthy (include c) && truthy (exclude c));
        eexists; reflexivity. }
    destruct Hv as [msg Hv]. exists msg. split; [exact Hv|].
    intros. unfold download_owner. rewrite Hv. reflexivity.
  - intros H. unfold validate.
    destruct (truthy (include c)) eqn:Hi; destruct (truthy (exclude c)) eqn:He; simpl.
    + exfalso. apply H. left. split; intros E; rewrite E in *; discriminate.
    + destruct (warn c) eqn:Hw; destruct (fail_fast c) eqn:Hf; simpl; auto; tauto.
    + destruct (warn c) eqn:Hw; destruct (fail_fast c) eqn:Hf; simpl; auto; tauto.
    + destruct (warn c) eqn:Hw; destruct (fail_fast c) eqn:Hf; simpl; auto; tauto.
Qed.

(** ** Backend classification *)

(** C6: the client class for an href is decided, in order, by the override
    of the config, an absent host (filesystem), the [s3] scheme (S3), a host
    ending in [blob.core.windows.net] (Planetary Computer), the [http] or
    [https] scheme (HTTP); any other href is refused with the error
    "could not guess client class for href". *)
Theorem get_client_class_order (config : Config) (href : string) :
  let u := URL href in
  (forall n k, client_override config = Some n -> client_class_of_name n = Some k ->
     get_client_class config href = Ok k)
  /\ (client_override config = None ->
      (host u = "" -> get_client_class config href = Ok FilesystemClient)
      /\ (host u <> "" -> scheme u = "s3" -> get_client_class config href = Ok S3Client)
      /\ (host u <> "" -> scheme u <> "s3" -> Str.endswith (host u) "blob.core.windows.net" = true ->
          get_client_class config href = Ok PlanetaryComputerClient)
      /\ (host u <> "" -> scheme u <> "s3" -> Str.endswith (host u) "blob.core.windows.net" = false ->
          (scheme u = "http" \/ scheme u = "https") -> get_client_class config href = Ok HttpClient)
      /\ (host u <> "" -> scheme u <> "s3" -> Str.endswith (host u) "blob.core.windows.net" = false ->
          scheme u <> "http" -> scheme u <> "https" ->
          get_client_class config href = Err (ValueError "could not guess client class for href"))).
Proof.
  intros u. unfold get_client_class, guess_client_class_from_href, guess_client_class_from_url.
  fold u. split.
  - intros n k Ho Hk. rewrite Ho, Hk. reflexivity.
  - intros Ho. rewrite Ho.
    repeat split; intros; repeat match goal with
      | H : ?x = ?y |- context [String.eqb ?x ?y] => rewrite (proj2 (String.eqb_eq x y) H)
      | H : ?x <> ?y |- context [String.eqb ?x ?y] => rewrite (proj2 (String.eqb_neq x y) H)
      | H : ?e = _ |- context [if ?e then _ else _] => rewrite H
      end; simpl; try reflexivity.
    destruct H2 as [E|E]; rewrite E; reflexivity.
Qed.

(** ** Alternate hrefs *)



(** ** Existence probe *)

(** C10: [asset_exists] answers with a boolean: [true] exactly when
    [assert_asset_exists] completes, [false] for every exception it raises,
    in particular when the asset has no absolute href. *)
Theorem asset_exists_iff (env : Env) (asset : Asset) (start : option string)
  (config : option Config) :
  (asset_exists env asset start config = true <-> assert_asset_exists env asset start config = Ok tt)
  /\ (forall e, assert_asset_exists env asset start config = Err e ->
      asset_exists env asset start config = false)
  /\ (get_absolute_asset_href asset
        (alternate_assets (match config with Some c => c | None => default_config end))
        start (cwd env) = Ok None ->
      assert_asset_exists env asset start config
        = Err (ValueError "asset does not have an absolute href")
      /\ asset_exists env asset start config = false).
Proof.
  unfold asset_exists. split; [|split].
  - destruct (assert_asset_exists env asset start config) as [[]|e]; split; congruence.
  - intros e He. rewrite He. reflexivity.
  - intros Hnone. unfold assert_asset_exists. rewrite Hnone. simpl. split; reflexivity.
Qed.

(** ** File name collisions *)

Lemma mem_In (x : string) (l : list string) : mem x l = true <-> In x l.
Proof.
  unfold mem. rewrite existsb_exists. split.
  - intros [y [Hy E]]. apply String.eqb_eq in E. subst. exact Hy.
  - intros H. exists x. split; [exact H | apply String.eqb_refl].
Qed.

Lemma add_loop_collision (config : Config) (root : string) (l : list (string * Asset)) :
  forall seen pre n post,
    in_scope_names config l = List.app pre (n :: post) ->
    NoDup (List.app seen pre) -> In n (List.app seen pre) ->
    add_loop config root seen l = Err (AssetOverwriteError (List.app seen pre)).
Proof.
  induction l as [|[k a] l IH]; intros seen pre n post Hnames Hnd Hin.
  - destruct pre; discriminate.
  - unfold in_scope_names in Hnames. simpl in Hnames. simpl.
    destruct (in_scope config k) eqn:Hk.
    + simpl in Hnames. destruct pre as [|x pre'].
      * simpl in Hnames. injection Hnames as Hx _. subst n.
        rewrite app_nil_r in *. apply mem_In in Hin. rewrite Hin. reflexivity.
      * simpl in Hnames. injection Hnames as Hx Hrest. subst x.
        assert (Hnot : mem (asset_file_name config k a) seen = false).
        { destruct (mem (asset_file_name config k a) seen) eqn:E; [|reflexivity].
          apply mem_In in E. apply NoDup_remove_2 in Hnd. exfalso. apply Hnd.
          apply in_or_app. left. exact E. }
        rewrite Hnot.
        rewrite (IH (List.app seen [asset_file_name config k a]) pre' n post).
        -- simpl. rewrite <- app_assoc. reflexivity.
        -- exact Hrest.
        -- rewrite <- app_assoc. exact Hnd.
        -- rewrite <- app_assoc. exact Hin.
    + apply (IH seen pre n post); assumption.
Qed.

(** C1 (as the code does it): for one owner, if the file names computed for
    its in-scope assets repeat, the batch is rejected with
    [AssetOverwriteError] before any download starts, the world (files,
    requests, messages) untouched; the error lists the names recorded up to
    the first repetition, which include the repeated name. *)
Theorem add_collision_rejected (env : Env) (config : Config) (n : nat) (root : string)
  (file_name : option string) (keep : bool) (sched : list Event) (w : World) (o1 : Owner)
  (pre : list string) (name : string) (post : list string)
  (Hvalid : validate config = Ok tt)
  (Habs : make_asset_hrefs_absolute (owner w) (cwd env) = Ok o1)
  (Hnames : in_scope_names config (assets o1) = List.app pre (name :: post))
  (Hnd : NoDup pre) (Hin : In name pre) :
  download_owner env config n root file_name keep sched w
    = Rejected (AssetOverwriteError pre) w.
Proof.
  unfold download_owner, add. rewrite Hvalid, Habs. simpl.
  rewrite (add_loop_collision config root (assets o1) [] pre name post Hnames Hnd Hin).
  reflexivity.
Qed.

(** *** Concrete batches *)

Definition ex_env : Env :=
  mkEnv (fun _ h => if String.eqb h "https://example.com/missing.tif"
                    then Err (ClientError "404 Not Found") else Ok "bytes")
        (fun _ _ => Ok tt) "/work".

Definition ex_asset (h : string) : Asset := mkAsset h None.

(** Four assets in two colliding pairs: [a.tif] twice, then [b.tif] twice. *)
Definition ex_colliding_owner : Owner :=
  mkOwner "item" None
    [("a1", ex_asset "https://example.com/x/a.tif");
     ("a2", ex_asset "https://example.com/y/a.tif");
     ("b1", ex_asset "https://example.com/x/b.tif");
     ("b2", ex_asset "https://example.com/y/b.tif")].

Definition ex_world (o : Owner) : World := mkWorld [] ["/out"] [] (Some []) o.

Lemma add_collision_rejected_witness :
  download_owner ex_env default_config 2 "/out" None false []
    (ex_world ex_colliding_owner)
  = Rejected (AssetOverwriteError ["a.tif"]) (ex_world ex_colliding_owner).
Proof.
  apply (add_collision_rejected ex_env default_config 2 "/out" None false []
           (ex_world ex_colliding_owner) ex_colliding_owner ["a.tif"] "a.tif" ["b.tif"; "b.tif"]);
    try (vm_compute; reflexivity).
  - constructor; [intros []|constructor].
  - left; reflexivity.
Defined.

(** C1 as stated fails: [b.tif] is the file name of two in-scope assets,
    but the batch is rejected at the first collision and the error lists
    only [a.tif]. *)
Lemma collision_error_misses_name :
  exists l,
    download_owner ex_env default_config 2 "/out" None false []
      (ex_world ex_colliding_owner) = Rejected (AssetOverwriteError l) (ex_world ex_colliding_owner)
    /\ in_scope_names default_config (assets ex_colliding_owner) = ["a.tif"; "a.tif"; "b.tif"; "b.tif"]
    /\ ~ In "b.tif" l.
Proof.
  exists ["a.tif"]. split; [vm_compute; reflexivity|]. split; [vm_compute; reflexivity|].
  simpl. intros [H|[]]. discriminate.
Qed.

(** ** The per-asset download *)

Lemma download_href_owner (env : Env) (c : ClientClass) (h p : string) (cl : bool) (w : World) :
  owner (snd (download_href env c h p cl w)) = owner w
  /\ net (snd (download_href env c h p cl w)) = List.app (net w) [h].
Proof.
  unfold download_href. destruct (remote env c h); simpl; [split; reflexivity|].
  destruct cl; split; reflexivity.
Qed.

Lemma download_asset_owner (env : Env) (config : Config) (key : string) (a : Asset)
  (path : string) (w : World) :
  owner (snd (download_asset env config key a path w)) =
  match fst (download_asset env config key a path w) with
  | Ok _ => set_assets (owner w) (update key (fun x => set_href x path) (assets (owner w)))
  | Err _ => owner w
  end.
Proof.
  unfold download_asset.
  destruct (mem (dirname path) (dirs w)); [|destruct (make_directory config)]; simpl;
    try reflexivity;
    destruct (get_absolute_asset_href _ _ _ _) as [[h|]|e]; simpl; try reflexivity;
    destruct (get_client_class config h) as [c|e]; simpl; try reflexivity;
    match goal with
    | |- context [download_href ?env ?c ?h ?p ?cl ?w1] =>
        pose proof (download_href_owner env c h p cl w1) as [Ho _];
        destruct (download_href env c h p cl w1) as [[[]|e'] w2] eqn:E; simpl in *; rewrite Ho; reflexivity
    end.
Qed.



(** ** The href of a downloaded asset *)

Lemma lookup_update {A} (k : string) (f : A -> A) (l : list (string * A)) :
  lookup k (update k f l) = option_map f (lookup k l).
Proof.
  induction l as [|[k' v] l IH]; simpl; [reflexivity|].
  destruct (String.eqb k k') eqn:E; simpl; rewrite E; [reflexivity|exact IH].
Qed.

Lemma isabs_app (a b : string) : isabs a = true -> isabs (a ++ b) = true.
Proof.
  unfold isabs, Str.startswith. destruct a as [|c a]; [discriminate|].
  cbn [String.prefix String.append].
  destruct (Ascii.ascii_dec "/" c); [|discriminate].
  intros _. destruct (a ++ b); reflexivity.
Qed.

Lemma path_join_isabs (root name : string) : isabs root = true -> isabs (path_join root name) = true.
Proof.
  intros H. unfold path_join.
  destruct (isabs name) eqn:Hn; [exact Hn|].
  destruct (String.eqb name "") ; [exact H|].
  destruct (String.eqb root "" || String.eqb root ".") eqn:Hr.
  - exfalso. apply orb_true_iff in Hr.
    destruct Hr as [E|E]; apply String.eqb_eq in E; subst root; discriminate.
  - destruct (Str.endswith root "/"); apply isabs_app; exact H.
Qed.

Lemma add_loop_paths (config : Config) (root : string) (l : list (string * Asset)) :
  forall seen kept dls, add_loop config root seen l = Ok (kept, dls) ->
  Forall (fun d => exists name, dl_path d = path_join root name) dls.
Proof.
  induction l as [|[k a] l IH]; intros seen kept dls H; simpl in H.
  - injection H as _ <-. constructor.
  - destruct (in_scope config k); [|exact (IH _ _ _ H)].
    destruct (mem (asset_file_name config k a) seen); [discriminate|].
    destruct (add_loop config root _ l) as [[kept' dls']|e] eqn:E; simpl in H; [|discriminate].
    injection H as _ <-. constructor; [eexists; reflexivity|exact (IH _ _ _ E)].
Qed.

Lemma add_paths (config : Config) (o : Owner) (root : string) (file_name : option string)
  (keep : bool) (cwd : string) (o' : Owner) (dls : list Download) :
  add config o root file_name keep cwd = Ok (o', dls) ->
  Forall (fun d => exists name, dl_path d = path_join root name) dls.
Proof.
  unfold add. destruct (make_asset_hrefs_absolute o cwd) as [o1|e]; simpl; [|discriminate].
  destruct (add_loop config root [] _) as [[kept dls']|e] eqn:E; simpl; [|discriminate].
  intros H. injection H as _ <-. exact (add_loop_paths _ _ _ _ _ _ E).
Qed.

Lemma download_one_returned_owner (env : Env) (config : Config) (d d' : Download) (w w' : World) :
  download_one env config d w = (Returned d', w') ->
  lookup (dl_key d) (assets (owner w')) =
    option_map (fun a => set_href a (dl_path d)) (lookup (dl_key d) (assets (owner w))).
Proof.
  unfold download_one.
  destruct (negb (path_exists w (dl_path d)) || overwrite config).
  - pose proof (download_asset_owner env config (dl_key d) (dl_asset d) (dl_path d) w) as Ho.
    destruct (download_asset env config (dl_key d) (dl_asset d) (dl_path d) w) as [[[]|e] w2];
      simpl in Ho.
    + intros H. injection H as _ <-. simpl. rewrite lookup_update, Ho. simpl.
      rewrite lookup_update. destruct (lookup (dl_key d) (assets (owner w))); reflexivity.
    + destruct (fail_fast config); discriminate.
  - intros H. injection H as _ <-. simpl. rewrite lookup_update. reflexivity.
Qed.

(** C8 (as the code does it): every download that succeeds, skipped or
    fetched, rewrites the owner's entry for its asset to the destination
    path [root / file name]; that href is absolute when the output
    directory is. *)
Theorem downloaded_href_is_destination (env : Env) (config : Config) (o o' : Owner)
  (root : string) (file_name : option string) (keep : bool) (dls : list Download)
  (d d' : Download) (w w' : World)
  (Hadd : add config o root file_name keep (cwd env) = Ok (o', dls)) (Hd : In d dls)
  (Hrun : download_one env config d w = (Returned d', w')) :
  lookup (dl_key d) (assets (owner w')) =
    option_map (fun a => set_href a (dl_path d)) (lookup (dl_key d) (assets (owner w)))
  /\ (isabs root = true -> isabs (dl_path d) = true).
Proof.
  split; [exact (download_one_returned_owner _ _ _ _ _ _ Hrun)|].
  intros Hroot. pose proof (add_paths _ _ _ _ _ _ _ _ Hadd) as Hp.
  rewrite Forall_forall in Hp. destruct (Hp d Hd) as [name ->].
  apply path_join_isabs. exact Hroot.
Qed.

Definition ex_single_owner : Owner :=
  mkOwner "item" None [("data", ex_asset "https://example.com/a.tif")].

Lemma downloaded_href_is_destination_witness :
  lookup "data" (assets (owner (snd (download_one ex_env default_config
     (mkDownload "data" (ex_asset "https://example.com/a.tif") "/out/a.tif")
     (ex_world ex_single_owner)))))
  = Some (ex_asset "/out/a.tif")
  /\ isabs "/out/a.tif" = true.
Proof.
  destruct (downloaded_href_is_destination ex_env default_config ex_single_owner ex_single_owner
    "/out" None false [mkDownload "data" (ex_asset "https://example.com/a.tif") "/out/a.tif"]
    (mkDownload "data" (ex_asset "https://example.com/a.tif") "/out/a.tif")
    (mkDownload "data" (ex_asset "https://example.com/a.tif") "/out/a.tif")
    (ex_world ex_single_owner)
    (snd (download_one ex_env default_config
       (mkDownload "data" (ex_asset "https://example.com/a.tif") "/out/a.tif")
       (ex_world ex_single_owner))))
    as [H1 H2].
  - vm_compute. reflexivity.
  - left. reflexivity.
  - vm_compute. reflexivity.
  - split; [exact H1 | exact (H2 eq_refl)].
Defined.

(** C8 as stated fails: with a relative output directory [out], a
    successful download leaves the asset's href at the relative path
    [out/a.tif]. *)
Lemma relative_directory_leaves_relative_href :
  exists ws b,
    download_owner ex_env default_config 2 "out" None false [Acquire 0; Complete 0]
      (mkWorld [] ["out"] [] None ex_single_owner) = Ran (Finished (Ok tt) ws b)
    /\ lookup "data" (assets (owner (world b))) = Some (ex_asset "out/a.tif")
    /\ isabs "out/a.tif" = false.
Proof.
  eexists. eexists. split; [vm_compute; reflexivity|]. split; vm_compute; reflexivity.
Qed.







(** ** The scheduler *)

Section ListFacts.
Context {A : Type}.

Lemma length_set_nth (l : list A) (i : nat) (x : A) : length (set_nth l i x) = length l.
  Proof.
    revert i; induction l as [|y l IH]; intros [|i]; simpl; try reflexivity; rewrite IH; reflexivity.
  Qed.

Lemma nth_error_set_nth_eq (l : list A) (i : nat) (x y : A) :
    nth_error l i = Some y -> nth_error (set_nth l i x) i = Some x.
  Proof.
    revert i; induction l as [|z l IH]; intros [|i] H; simpl in *; try discriminate; auto.
  Qed.

Lemma nth_error_set_nth_neq (l : list A) (i j : nat) (x : A) :
    j <> i -> nth_error (set_nth l i x) j = nth_error l j.
  Proof.
    revert i j; induction l as [|z l IH]; intros [|i] [|j] H; simpl; auto; congruence.
  Qed.

Lemma filter_set_nth (f : A -> bool) (l : list A) (i : nat) (x y : A) :
    nth_error l i = Some x ->
    length (filter f (set_nth l i y)) + (if f x then 1 else 0)
    = length (filter f l) + (if f y then 1 else 0).
  Proof.
    revert i; induction l as [|z l IH]; intros [|i] H; simpl in *; try discriminate.
    - injection H as ->. destruct (f x), (f y); simpl; lia.
    - specialize (IH i H). destruct (f z); simpl; lia.
  Qed.
End ListFacts.

Lemma lookup_update_neq {A} (k k' : string) (f : A -> A) (l : list (string * A)) :
  k <> k' -> lookup k (update k' f l) = lookup k l.
Proof.
  intros Hne. induction l as [|[k0 v] l IH]; simpl; [reflexivity|].
  destruct (String.eqb k' k0) eqn:E1; simpl.
  - apply String.eqb_eq in E1. subst k0.
    rewrite (proj2 (String.eqb_neq k k') Hne). reflexivity.
  - destruct (String.eqb k k0); [reflexivity|exact IH].
Qed.

Lemma keys_update {A} (k : string) (f : A -> A) (l : list (string * A)) :
  map fst (update k f l) = map fst l.
Proof.
  induction l as [|[k0 v] l IH]; simpl; [reflexivity|].
  destruct (String.eqb k k0); simpl; [reflexivity|]. rewrite IH. reflexivity.
Qed.

Lemma lookup_None_not_In {A} (k : string) (l : list (string * A)) :
  ~ In k (map fst l) -> lookup k l = None.
Proof.
  induction l as [|[k0 v] l IH]; simpl; intros H; [reflexivity|].
  destruct (String.eqb k k0) eqn:E.
  - apply String.eqb_eq in E. subst. exfalso. apply H. left. reflexivity.
  - apply IH. intros Hin. apply H. right. exact Hin.
Qed.

Lemma keys_remove_key {A} (k : string) (l : list (string * A)) :
  forall x, In x (map fst (remove_key k l)) -> In x (map fst l).
Proof.
  induction l as [|[k0 v] l IH]; simpl; intros x Hx; [exact Hx|].
  destruct (String.eqb k k0); [right; exact Hx|].
  simpl in Hx. destruct Hx as [Hx|Hx]; [left; exact Hx|right; apply IH; exact Hx].
Qed.

Lemma NoDup_remove_key {A} (k : string) (l : list (string * A)) :
  NoDup (map fst l) -> NoDup (map fst (remove_key k l)).
Proof.
  induction l as [|[k0 v] l IH]; simpl; intros H; [exact H|].
  inversion H as [|? ? Hnotin Hnd]; subst.
  destruct (String.eqb k k0); [exact Hnd|].
  simpl. constructor; [|exact (IH Hnd)].
  intros Hin. apply Hnotin. apply (keys_remove_key k l). exact Hin.
Qed.

Lemma lookup_remove_key_same {A} (k : string) (l : list (string * A)) :
  NoDup (map fst l) -> lookup k (remove_key k l) = None.
Proof.
  induction l as [|[k0 v] l IH]; simpl; intros H; [reflexivity|].
  inversion H as [|? ? Hnotin Hnd]; subst.
  destruct (String.eqb k k0) eqn:E.
  - apply String.eqb_eq in E. subst. apply lookup_None_not_In. exact Hnotin.
  - simpl. rewrite E. exact (IH Hnd).
Qed.

Lemma lookup_remove_key_None {A} (k k' : string) (l : list (string * A)) :
  lookup k l = None -> lookup k (remove_key k' l) = None.
Proof.
  induction l as [|[k0 v] l IH]; simpl; intros H; [reflexivity|].
  destruct (String.eqb k k0) eqn:E; [discriminate|].
  destruct (String.eqb k' k0); [exact H|]. simpl. rewrite E. exact (IH H).
Qed.

Lemma download_one_facts (env : Env) (config : Config) (d : Download) (w : World) :
  let '(r, w') := download_one env config d w in
  (forall k, k <> dl_key d -> lookup k (assets (owner w')) = lookup k (assets (owner w)))
  /\ map fst (assets (owner w')) = map fst (assets (owner w))
  /\ match r with
     | Returned d' => d' = d
     | Wrapped d' _ => d' = d /\ owner w' = owner w
     | Raised _ => fail_fast config = true /\ owner w' = owner w
     end.
Proof.
  unfold download_one.
  destruct (negb (path_exists w (dl_path d)) || overwrite config).
  - pose proof (download_asset_owner env config (dl_key d) (dl_asset d) (dl_path d) w) as Ho.
    destruct (download_asset env config (dl_key d) (dl_asset d) (dl_path d) w) as [[[]|e] w2];
      simpl in Ho.
    + simpl. rewrite Ho. simpl. split; [|split; [|reflexivity]].
      * intros k Hk. rewrite !lookup_update_neq by exact Hk. reflexivity.
      * rewrite !keys_update. reflexivity.
    + destruct (fail_fast config) eqn:Hf; rewrite Ho; (split; [reflexivity|split; [reflexivity|auto]]).
  - simpl. split; [|split; [|reflexivity]].
    + intros k Hk. rewrite lookup_update_neq by exact Hk. reflexivity.
    + rewrite keys_update. reflexivity.
Qed.

(** The error of the first task, in completion order, that raised. *)
Fixpoint first_raised (log : list nat) (ts : list TState) : option Error :=
  match log with
  | [] => None
  | i :: log' =>
      match nth_error ts i with
      | Some (Done (Raised e)) => Some e
      | _ => first_raised log' ts
      end
  end.

Lemma first_raised_ext (log : list nat) (ts ts' : list TState) :
  (forall j, In j log -> nth_error ts' j = nth_error ts j) ->
  first_raised log ts' = first_raised log ts.
Proof.
  induction log as [|j log IH]; simpl; intros H; [reflexivity|].
  rewrite (H j (or_introl eq_refl)).
  destruct (nth_error ts j) as [[| |[]|]|]; try reflexivity;
  apply IH; intros; apply H; right; assumption.
Qed.

Lemma first_raised_app (log : list nat) (i : nat) (ts : list TState) :
  first_raised (List.app log [i]) ts =
  match first_raised log ts with
  | Some e => Some e
  | None => match nth_error ts i with Some (Done (Raised e)) => Some e | _ => None end
  end.
Proof.
  induction log as [|j log IH]; simpl.
  - destruct (nth_error ts i) as [[| |[]|]|]; reflexivity.
  - destruct (nth_error ts j) as [[| |[]|]|]; try reflexivity; exact IH.
Qed.

(** The invariant of a batch run from the world [w0]. *)
Record Inv (config : Config) (n : nat) (dls : list Download) (w0 : World) (b : Batch) : Prop := {
  inv_len : length (tstates b) = length dls;
  inv_sem : sem b + in_flight b = n;
  inv_keys : map fst (assets (owner (world b))) = map fst (assets (owner w0));
  inv_untouched : NoDup (map dl_key dls) -> forall i d, nth_error dls i = Some d ->
    (forall d', nth_error (tstates b) i <> Some (Done (Returned d'))) ->
    lookup (dl_key d) (assets (owner (world b))) = lookup (dl_key d) (assets (owner w0));
  inv_wrapped : forall i d' e, nth_error (tstates b) i = Some (Done (Wrapped d' e)) ->
    nth_error dls i = Some d';
  inv_raised : forall i e, nth_error (tstates b) i = Some (Done (Raised e)) ->
    fail_fast config = true;
  inv_gather : gather_error b = first_raised (completed b) (tstates b);
  inv_log : forall i, In i (completed b) <-> exists r, nth_error (tstates b) i = Some (Done r)
}.

Lemma init_inv (config : Config) (n : nat) (dls : list Download) (w : World) :
  Inv config n dls w (init_batch n dls w).
Proof.
  assert (Hnth : forall i t, nth_error (repeat Pending (length dls)) i = Some t -> t = Pending).
  { intros i t H. apply nth_error_In in H. apply repeat_spec in H. exact H. }
  assert (Hfl : forall m, filter is_running (repeat Pending m) = []).
  { induction m; simpl; auto. }
  constructor; simpl.
  - apply repeat_length.
  - unfold in_flight. simpl. rewrite Hfl. simpl. lia.
  - reflexivity.
  - intros; reflexivity.
  - intros i d' e H. apply Hnth in H. discriminate.
  - intros i e H. apply Hnth in H. discriminate.
  - reflexivity.
  - intros i. split; [intros []|]. intros [r H]. apply Hnth in H. discriminate.
Qed.

Section Preservation.
Variables (env : Env) (config : Config) (n : nat) (dls : list Download) (w0 : World).

Lemma acquire_inv (i : nat) (b : Batch) :
    Inv config n dls w0 b -> Inv config n dls w0 (acquire i b).
  Proof.
    intros I. unfold acquire.
    destruct (nth_error (tstates b) i) as [t|] eqn:Ht; [|exact I].
    destruct t; try exact I.
    destruct (Nat.ltb 0 (sem b)) eqn:Hs; [|exact I].
    apply Nat.ltb_lt in Hs.
    assert (Hneq : forall j t', nth_error (tstates b) j = Some (Done t') -> j <> i).
    { intros j t' Hj E. subst j. congruence. }
    assert (Hnth : forall j, j <> i ->
              nth_error (set_nth (tstates b) i Running) j = nth_error (tstates b) j).
    { intros j Hj. apply nth_error_set_nth_neq. exact Hj. }
    assert (Hi : nth_error (set_nth (tstates b) i Running) i = Some Running)
      by exact (nth_error_set_nth_eq _ _ _ _ Ht).
    destruct I as [Ilen Isem Ikeys Iunt Iwr Irs Igat Ilog].
    constructor; simpl.
    - rewrite length_set_nth. exact Ilen.
    - unfold in_flight in *. simpl.
      pose proof (filter_set_nth is_running (tstates b) i Pending Running Ht) as F.
      simpl in F. lia.
    - exact Ikeys.
    - intros Hnd j d Hd Hnot. apply (Iunt Hnd j d Hd).
      intros d' E. destruct (Nat.eq_dec j i) as [->|Hji]; [congruence|].
      apply (Hnot d'). rewrite Hnth by exact Hji. exact E.
    - intros j d' e E. destruct (Nat.eq_dec j i) as [->|Hji]; [congruence|].
      rewrite Hnth in E by exact Hji. exact (Iwr j d' e E).
    - intros j e E. destruct (Nat.eq_dec j i) as [->|Hji]; [congruence|].
      rewrite Hnth in E by exact Hji. exact (Irs j e E).
    - rewrite Igat. symmetry. apply first_raised_ext.
      intros j Hj. apply Ilog in Hj. destruct Hj as [r Hr].
      apply Hnth. exact (Hneq j r Hr).
    - intros j. rewrite Ilog. destruct (Nat.eq_dec j i) as [->|Hji].
      + rewrite Hi, Ht. split; intros [r E]; discriminate.
      + rewrite Hnth by exact Hji. reflexivity.
  Qed.

Lemma cancel_all_inv (b : Batch) :
    Inv config n dls w0 b -> Inv config n dls w0 (cancel_all b) /\ in_flight (cancel_all b) = 0.
  Proof.
    intros I.
    assert (Hfl : forall l, filter is_running (map cancel_task l) = []).
    { induction l as [|[] l IH]; simpl; auto. }
    assert (Hdone : forall j r, nth_error (map cancel_task (tstates b)) j = Some (Done r) ->
              nth_error (tstates b) j = Some (Done r)).
    { intros j r E. rewrite nth_error_map in E.
      destruct (nth_error (tstates b) j) as [[]|]; simpl in E; congruence. }
    assert (Hdone' : forall j r, nth_error (tstates b) j = Some (Done r) ->
              nth_error (map cancel_task (tstates b)) j = Some (Done r)).
    { intros j r E. rewrite nth_error_map, E. reflexivity. }
    destruct I as [Ilen Isem Ikeys Iunt Iwr Irs Igat Ilog].
    split; [constructor; simpl|].
    - rewrite length_map. exact Ilen.
    - unfold in_flight in *. simpl. rewrite Hfl. simpl. lia.
    - exact Ikeys.
    - intros Hnd j d Hd Hnot. apply (Iunt Hnd j d Hd).
      intros d' E. apply (Hnot d'). apply Hdone'. exact E.
    - intros j d' e E. apply (Iwr j d' e). apply Hdone. exact E.
    - intros j e E. apply (Irs j e). apply Hdone. exact E.
    - rewrite Igat. symmetry. apply first_raised_ext.
      intros j Hj. apply Ilog in Hj. destruct Hj as [r Hr]. rewrite Hr. apply Hdone'. exact Hr.
    - intros j. rewrite Ilog. split; intros [r E]; exists r; [apply Hdone'|apply Hdone]; exact E.
    - unfold in_flight. simpl. rewrite Hfl. reflexivity.
  Qed.

Lemma nodup_keys_distinct (i j : nat) (di dj : Download) :
    NoDup (map dl_key dls) -> nth_error dls i = Some di -> nth_error dls j = Some dj ->
    j <> i -> dl_key dj <> dl_key di.
  Proof.
    intros Hnd Hi Hj Hji E. apply Hji.
    apply (proj1 (NoDup_nth_error (map dl_key dls)) Hnd).
    - rewrite length_map. apply nth_error_Some. congruence.
    - rewrite !nth_error_map, Hi, Hj. simpl. rewrite E. reflexivity.
  Qed.

Lemma complete_inv (i : nat) (b : Batch) :
    Inv config n dls w0 b -> Inv config n dls w0 (complete env config dls i b).
  Proof.
    intros I. unfold complete.
    destruct (nth_error (tstates b) i) as [t|] eqn:Ht; [|exact I].
    destruct t; try exact I.
    destruct (nth_error dls i) as [d|] eqn:Hdi; [|exact I].
    pose proof (download_one_facts env config d (world b)) as F.
    destruct (download_one env config d (world b)) as [r w'] eqn:Edl.
    destruct F as [Foth [Fkeys Fr]].
    set (ts' := set_nth (tstates b) i (Done r)).
    assert (Hnth : forall j, j <> i -> nth_error ts' j = nth_error (tstates b) j).
    { intros j Hj. apply nth_error_set_nth_neq. exact Hj. }
    assert (Hi : nth_error ts' i = Some (Done r)) by exact (nth_error_set_nth_eq _ _ _ _ Ht).
    assert (Hnotlog : ~ In i (completed b)).
    { intros Hin. apply (inv_log _ _ _ _ _ I) in Hin. destruct Hin as [r' Hr']. congruence. }
    destruct I as [Ilen Isem Ikeys Iunt Iwr Irs Igat Ilog].
    constructor; simpl; fold ts'.
    - unfold ts'. rewrite length_set_nth. exact Ilen.
    - unfold in_flight in *. simpl.
      pose proof (filter_set_nth is_running (tstates b) i Running (Done r) Ht) as Fl.
      simpl in Fl. fold ts' in Fl. lia.
    - rewrite Fkeys. exact Ikeys.
    - intros Hnd j dj Hdj Hnot. destruct (Nat.eq_dec j i) as [->|Hji].
      + rewrite Hdi in Hdj. injection Hdj as <-.
        destruct r as [d'|d' e|e].
        * exfalso. apply (Hnot d'). exact Hi.
        * destruct Fr as [_ ->]. apply (Iunt Hnd i d Hdi). intros d'' E. congruence.
        * destruct Fr as [_ ->]. apply (Iunt Hnd i d Hdi). intros d'' E. congruence.
      + rewrite Foth by exact (nodup_keys_distinct i j d dj Hnd Hdi Hdj Hji).
        apply (Iunt Hnd j dj Hdj). intros d' E. apply (Hnot d'). rewrite Hnth by exact Hji. exact E.
    - intros j d' e E. destruct (Nat.eq_dec j i) as [->|Hji].
      + rewrite Hi in E. injection E as ->. destruct Fr as [-> _]. exact Hdi.
      + rewrite Hnth in E by exact Hji. exact (Iwr j d' e E).
    - intros j e E. destruct (Nat.eq_dec j i) as [->|Hji].
      + rewrite Hi in E. injection E as ->. destruct Fr as [Hf _]. exact Hf.
      + rewrite Hnth in E by exact Hji. exact (Irs j e E).
    - rewrite first_raised_app, Hi.
      rewrite (first_raised_ext (completed b) (tstates b) ts').
      + rewrite <- Igat. destruct (gather_error b), r; reflexivity.
      + intros j Hj. apply Hnth. intros ->. exact (Hnotlog Hj).
    - intros j. rewrite in_app_iff. simpl. destruct (Nat.eq_dec j i) as [->|Hji].
      + rewrite Hi. split; [intros _; exists r; reflexivity|intros _; right; left; reflexivity].
      + rewrite Hnth by exact Hji. rewrite <- Ilog. split.
        * intros [H|[H|[]]]; [exact H|congruence].
        * intros H; left; exact H.
  Qed.

End Preservation.

Lemma finish_spec (config : Config) (b : Batch) :
  let '(o', ws, es) := handle_results config (done_results (tstates b)) (owner (world b)) in
  finish config b =
    Finished (match es with [] => Ok tt | _ => Err (DownloadError es) end) ws
      (mkBatch (tstates b) (sem b) (with_owner (world b) o') (gather_error b) (completed b)).
Proof.
  unfold finish. destruct (handle_results _ _ _) as [[o' ws] es]. destruct es; reflexivity.
Qed.

Lemma run_inv (env : Env) (config : Config) (n : nat) (dls : list Download) (w0 : World) :
  forall sched b, Inv config n dls w0 b ->
  match run env config dls sched b with
  | Finished r ws b' => exists b0, Inv config n dls w0 b0 /\ settled b0 = true
                                   /\ finish config b0 = Finished r ws b'
  | Aborted e b' => exists b0, Inv config n dls w0 b0 /\ gather_error b0 = Some e
                               /\ b' = cancel_all b0
  | Blocked b' => Inv config n dls w0 b'
  end.
Proof.
  induction sched as [|ev sched IH]; intros b I; simpl;
    (destruct (settled b) eqn:Hs;
     [pose proof (finish_spec config b) as Hf;
      destruct (handle_results _ _ _) as [[o' ws] es]; rewrite Hf; exists b; auto|]).
  - exact I.
  - destruct ev as [i|i|].
    + apply IH. apply acquire_inv. exact I.
    + apply IH. apply complete_inv. exact I.
    + destruct (gather_error b) as [e|] eqn:Hg.
      * exists b. auto.
      * apply IH. exact I.
Qed.

Lemma run_gen (env : Env) (config : Config) (n : nat) (dls : list Download) (w0 : World)
  (P : Batch -> Prop)
  (Pacq : forall i b, Inv config n dls w0 b -> P b -> P (acquire i b))
  (Pcomp : forall i b, Inv config n dls w0 b -> P b -> P (complete env config dls i b)) :
  forall sched b, Inv config n dls w0 b -> P b ->
  match run env config dls sched b with
  | Finished r ws b' => exists b0, Inv config n dls w0 b0 /\ P b0 /\ settled b0 = true
                                   /\ finish config b0 = Finished r ws b'
  | Aborted e b' => exists b0, Inv config n dls w0 b0 /\ P b0 /\ gather_error b0 = Some e
                               /\ b' = cancel_all b0
  | Blocked b' => Inv config n dls w0 b' /\ P b'
  end.
Proof.
  induction sched as [|ev sched IH]; intros b I Pb; simpl;
    (destruct (settled b) eqn:Hs;
     [pose proof (finish_spec config b) as Hf;
      destruct (handle_results _ _ _) as [[o' ws] es]; rewrite Hf; exists b; auto|]).
  - auto.
  - destruct ev as [i|i|].
    + apply IH; [apply acquire_inv|apply Pacq]; assumption.
    + apply IH; [apply complete_inv|apply Pcomp]; assumption.
    + destruct (gather_error b) as [e|] eqn:Hg.
      * exists b. auto.
      * apply IH; assumption.
Qed.

Definition outcome_batch (o : Outcome) : Batch :=
  match o with
  | Finished _ _ b | Aborted _ b | Blocked b => b
  end.

Lemma settled_in_flight (b : Batch) : settled b = true -> in_flight b = 0.
Proof.
  unfold settled, in_flight. destruct (gather_error b); [discriminate|].
  induction (tstates b) as [|[] l IH]; simpl; intros H; try discriminate; auto.
Qed.

(** C5: whatever the interleaving of the tasks, the number of downloads in
    flight (tasks holding a semaphore slot) never exceeds the limit [n] of
    [Downloads]: the statement holds for every schedule, hence for every
    prefix of one, that is at every point of a run.  When the batch ends,
    normally or by the fail-fast cancellation, every slot has been
    released: the semaphore is back at [n] with nothing in flight. *)
Theorem concurrent_downloads_bounded (env : Env) (config : Config) (n : nat)
  (dls : list Download) (sched : list Event) (w : World) :
  in_flight (outcome_batch (downloads_download env config n dls sched w)) <= n
  /\ (forall r ws b, downloads_download env config n dls sched w = Finished r ws b ->
      sem b = n /\ in_flight b = 0)
  /\ (forall e b, downloads_download env config n dls sched w = Aborted e b ->
      sem b = n /\ in_flight b = 0).
Proof.
  pose proof (run_inv env config n dls w sched (init_batch n dls w) (init_inv config n dls w)) as R.
  unfold downloads_download.
  destruct (run env config dls sched (init_batch n dls w)) as [r ws b|e b|b] eqn:E.
  - destruct R as [b0 [I0 [Hs Hf]]].
    pose proof (finish_spec config b0) as Hf'.
    destruct (handle_results _ _ _) as [[o' ws'] es]. rewrite Hf' in Hf.
    injection Hf as _ _ <-.
    pose proof (settled_in_flight b0 Hs) as Z. pose proof (inv_sem _ _ _ _ _ I0) as S.
    simpl. unfold in_flight in *. simpl.
    split; [lia|]. split; [|intros; discriminate].
    intros r' ws'' b' H. injection H as _ _ <-. simpl. split; lia.
  - destruct R as [b0 [I0 [_ ->]]].
    destruct (cancel_all_inv config n dls w b0 I0) as [I1 Z].
    pose proof (inv_sem _ _ _ _ _ I1) as S.
    simpl. split; [lia|]. split; [intros; discriminate|].
    intros e' b' H. injection H as _ <-. split; lia.
  - pose proof (inv_sem _ _ _ _ _ R) as S. simpl.
    split; [lia|]. split; intros; discriminate.
Qed.

Lemma first_raised_none (log : list nat) (ts : list TState) :
  (forall j e, nth_error ts j <> Some (Done (Raised e))) -> first_raised log ts = None.
Proof.
  intros H. induction log as [|j log IH]; simpl; [reflexivity|].
  destruct (nth_error ts j) as [[| |[d|d e|e]|]|] eqn:E; try exact IH.
  exfalso. exact (H j e E).
Qed.

Lemma settled_all_done (b : Batch) : settled b = true -> forall t, In t (tstates b) -> is_done t = true.
Proof.
  unfold settled. destruct (gather_error b); [discriminate|].
  intros H t Ht. rewrite forallb_forall in H. exact (H t Ht).
Qed.

Lemma run_app (env : Env) (config : Config) (dls : list Download) (s1 s2 : list Event) :
  forall b, run env config dls (List.app s1 s2) b =
  match run env config dls s1 b with
  | Blocked b' => run env config dls s2 b'
  | o => o
  end.
Proof.
  induction s1 as [|ev s1 IH]; intros b; simpl.
  - destruct (settled b) eqn:Hs; [|reflexivity].
    destruct s2; simpl; rewrite Hs;
      unfold finish; destruct (handle_results _ _ _) as [[o' ws] es]; destruct es; reflexivity.
  - destruct (settled b) eqn:Hs.
    + unfold finish. destruct (handle_results _ _ _) as [[o' ws] es]. destruct es; reflexivity.
    + destruct ev as [i|i|]; try apply IH.
      destruct (gather_error b); [reflexivity|apply IH].
Qed.

Lemma first_raised_some (log : list nat) (ts : list TState) (j : nat) (e : Error) :
  In j log -> nth_error ts j = Some (Done (Raised e)) -> exists e', first_raised log ts = Some e'.
Proof.
  intros Hj Ht. induction log as [|i log IH]; [contradiction|]. simpl.
  destruct Hj as [<-|Hj].
  - rewrite Ht. eexists; reflexivity.
  - destruct (nth_error ts i) as [[| |[d|d e0|e0]|]|]; try (apply IH; exact Hj).
    eexists; reflexivity.
Qed.

Lemma download_one_not_wrapped (env : Env) (config : Config) (d : Download) (w : World) :
  fail_fast config = true -> forall d' e, fst (download_one env config d w) <> Wrapped d' e.
Proof.
  intros Hff d' e. unfold download_one.
  destruct (negb (path_exists w (dl_path d)) || overwrite config); [|discriminate].
  destruct (download_asset env config (dl_key d) (dl_asset d) (dl_path d) w) as [[[]|e0] w'];
    simpl; [discriminate|]. rewrite Hff. discriminate.
Qed.

Lemma handle_results_returned (config : Config) (ts : list TState) (o : Owner) :
  (forall t, In t ts -> exists d, t = Done (Returned d)) ->
  handle_results config (done_results ts) o = (o, [], []).
Proof.
  induction ts as [|t ts IH]; intros H; [reflexivity|].
  destruct (H t (or_introl eq_refl)) as [d ->]. simpl.
  apply IH. intros t' Ht'. apply H. right. exact Ht'.
Qed.

(** C2: with [fail_fast], a batch that fails is aborted with the exception
    of the first task that raised, in completion order; by then every task
    that had not completed is cancelled, and the cancelled tasks have
    released their slots (nothing in flight, the semaphore back at [n]).
    A batch with [fail_fast] that finishes had no failing task at all (every
    task returned its download, nothing is warned or raised), and as soon
    as a task has raised, the orchestrator aborts the batch with the first
    raised exception the next time it resumes.
    Without [fail_fast], a batch is never aborted: no task raises, and the
    batch only ends once every task is done. *)
Theorem fail_fast_cancels_pending (env : Env) (config : Config) (n : nat)
  (dls : list Download) (sched : list Event) (w : World) :
  (fail_fast config = true ->
     (forall e b,
        downloads_download env config n dls sched w = Aborted e b ->
        first_raised (completed b) (tstates b) = Some e
        /\ (forall i, In i (completed b) <-> exists r, nth_error (tstates b) i = Some (Done r))
        /\ (forall t, In t (tstates b) -> is_done t = true \/ t = Cancelled)
        /\ sem b = n /\ in_flight b = 0)
     /\ (forall r ws b,
        downloads_download env config n dls sched w = Finished r ws b ->
        r = Ok tt /\ ws = []
        /\ forall t, In t (tstates b) -> exists d, t = Done (Returned d))
     /\ (forall b,
        downloads_download env config n dls sched w = Blocked b ->
        forall j e, nth_error (tstates b) j = Some (Done (Raised e)) ->
        exists e', first_raised (completed b) (tstates b) = Some e'
          /\ downloads_download env config n dls (List.app sched [Wake]) w
             = Aborted e' (cancel_all b)))
  /\ (fail_fast config = false ->
      (forall e b, downloads_download env config n dls sched w <> Aborted e b)
      /\ (forall r ws b, downloads_download env config n dls sched w = Finished r ws b ->
          forall t, In t (tstates b) -> is_done t = true)).
Proof.
  pose proof (run_inv env config n dls w sched (init_batch n dls w) (init_inv config n dls w)) as R.
  unfold downloads_download.
  split.
  - intros Hff. split; [|split].
    + intros e b E. rewrite E in R. destruct R as [b0 [I0 [Hg ->]]].
      destruct (cancel_all_inv config n dls w b0 I0) as [I1 Z].
      split; [|split; [|split; [|split]]].
      * rewrite <- (inv_gather _ _ _ _ _ I1). exact Hg.
      * exact (inv_log _ _ _ _ _ I1).
      * intros t Ht. simpl in Ht. apply in_map_iff in Ht. destruct Ht as [t0 [<- _]].
        destruct t0; simpl; auto.
      * pose proof (inv_sem _ _ _ _ _ I1). lia.
      * exact Z.
    + intros r ws b E.
      set (P := fun b : Batch => forall i d e, nth_error (tstates b) i <> Some (Done (Wrapped d e))).
      assert (Pacq : forall i b, Inv config n dls w b -> P b -> P (acquire i b)).
      { intros i b0 _ Pb. unfold acquire.
        destruct (nth_error (tstates b0) i) as [[]|] eqn:Ht; try exact Pb.
        destruct (Nat.ltb 0 (sem b0)); [|exact Pb].
        intros j d e. simpl. destruct (Nat.eq_dec j i) as [->|Hji].
        - rewrite (nth_error_set_nth_eq _ _ _ _ Ht). discriminate.
        - rewrite (nth_error_set_nth_neq _ _ _ _ Hji). apply Pb. }
      assert (Pcomp : forall i b, Inv config n dls w b -> P b -> P (complete env config dls i b)).
      { intros i b0 _ Pb. unfold complete.
        destruct (nth_error (tstates b0) i) as [[]|] eqn:Ht; try exact Pb.
        destruct (nth_error dls i) as [d|]; [|exact Pb].
        pose proof (download_one_not_wrapped env config d (world b0) Hff) as Hnw.
        destruct (download_one env config d (world b0)) as [r0 w'] eqn:Ed. simpl in Hnw.
        intros j d' e. simpl. destruct (Nat.eq_dec j i) as [->|Hji].
        - rewrite (nth_error_set_nth_eq _ _ _ _ Ht). intros H. injection H as ->.
          exact (Hnw d' e eq_refl).
        - rewrite (nth_error_set_nth_neq _ _ _ _ Hji). apply Pb. }
      assert (P0 : P (init_batch n dls w)).
      { intros i d e H. apply nth_error_In, repeat_spec in H. discriminate. }
      pose proof (run_gen env config n dls w P Pacq Pcomp sched (init_batch n dls w)
                    (init_inv config n dls w) P0) as G.
      rewrite E in G. destruct G as [b0 [I0 [Pb0 [Hs Hf]]]].
      assert (Hret : forall t, In t (tstates b0) -> exists d, t = Done (Returned d)).
      { intros t Ht. pose proof (settled_all_done b0 Hs t Ht) as Hd.
        apply In_nth_error in Ht. destruct Ht as [j Hj].
        destruct t as [| |[d|d e|e]|]; try discriminate Hd.
        - exists d. reflexivity.
        - exfalso. exact (Pb0 j d e Hj).
        - exfalso. assert (Hin : In j (completed b0))
            by (apply (inv_log _ _ _ _ _ I0); eexists; exact Hj).
          destruct (first_raised_some _ _ _ _ Hin Hj) as [e' He'].
          rewrite <- (inv_gather _ _ _ _ _ I0) in He'.
          unfold settled in Hs. rewrite He' in Hs. discriminate. }
      unfold finish in Hf. rewrite (handle_results_returned config (tstates b0) _ Hret) in Hf.
      injection Hf as <- <- <-. split; [reflexivity|split; [reflexivity|exact Hret]].
    + intros b E j e Hj. rewrite E in R.
      assert (Hin : In j (completed b)) by (apply (inv_log _ _ _ _ _ R); eexists; exact Hj).
      destruct (first_raised_some _ _ _ _ Hin Hj) as [e' He'].
      exists e'. split; [exact He'|].
      rewrite run_app, E. simpl.
      rewrite <- (inv_gather _ _ _ _ _ R) in He'. unfold settled. rewrite He'. reflexivity.
  - intros Hff. split.
    + intros e b E. rewrite E in R. destruct R as [b0 [I0 [Hg _]]].
      rewrite (inv_gather _ _ _ _ _ I0) in Hg.
      rewrite first_raised_none in Hg; [discriminate|].
      intros j e' Hj. pose proof (inv_raised _ _ _ _ _ I0 j e' Hj). congruence.
    + intros r ws b E. rewrite E in R. destruct R as [b0 [I0 [Hs Hf]]].
      pose proof (finish_spec config b0) as Hf'.
      destruct (handle_results _ _ _) as [[o' ws'] es]. rewrite Hf' in Hf.
      injection Hf as _ _ <-. simpl. exact (settled_all_done b0 Hs).
Qed.

(** ** Handling the failures of a batch *)

(** The exceptions of the [WrappedError]s among the results, and the keys
    of their downloads. *)
Definition failures (rs : list TaskResult) : list Error :=
  flat_map (fun r => match r with Wrapped _ e => [e] | _ => [] end) rs.

Definition failed_keys (rs : list TaskResult) : list string :=
  flat_map (fun r => match r with Wrapped d _ => [dl_key d] | _ => [] end) rs.

Lemma handle_results_spec (config : Config) (rs : list TaskResult) :
  forall o,
  let '(o', ws, es) := handle_results config rs o in
  ws = (if warn config then failures rs else [])
  /\ es = (if warn config then [] else failures rs)
  /\ (error_strategy config = KEEP -> o' = o)
  /\ (error_strategy config = DELETE -> forall k, lookup k (assets o) = None ->
      lookup k (assets o') = None)
  /\ (error_strategy config = DELETE -> NoDup (map fst (assets o)) ->
      forall k, In k (failed_keys rs) -> lookup k (assets o') = None).
Proof.
  induction rs as [|r rs IH]; intros o; simpl.
  - repeat split; try (destruct (warn config); reflexivity); auto. intros _ _ k [].
  - destruct r as [d|d e|e]; simpl; try exact (IH o).
    set (o1 := match error_strategy config with
               | DELETE => set_assets o (remove_key (dl_key d) (assets o))
               | KEEP => o
               end).
    specialize (IH o1). destruct (handle_results config rs o1) as [[o2 ws] es].
    destruct IH as [Hws [Hes [Hkeep [Hdel Hdel']]]].
    assert (Hres : (if warn config then (o2, e :: ws, es) else (o2, ws, e :: es))
                   = (o2, if warn config then e :: ws else ws, if warn config then es else e :: es))
      by (destruct (warn config); reflexivity).
    rewrite Hres.
    split; [|split; [|split; [|split]]].
    + rewrite Hws. destruct (warn config); reflexivity.
    + rewrite Hes. destruct (warn config); reflexivity.
    + intros Hk. rewrite (Hkeep Hk). unfold o1. rewrite Hk. reflexivity.
    + intros Hd k Hk. apply Hdel; [exact Hd|]. unfold o1. rewrite Hd. simpl.
      apply lookup_remove_key_None. exact Hk.
    + intros Hd Hnd k [<-|Hk].
      * apply Hdel; [exact Hd|]. unfold o1. rewrite Hd. simpl.
        apply lookup_remove_key_same. exact Hnd.
      * apply Hdel'; [exact Hd| |exact Hk]. unfold o1. rewrite Hd. simpl.
        apply NoDup_remove_key. exact Hnd.
Qed.

Lemma in_failed_keys (ts : list TState) (k : string) :
  In k (failed_keys (done_results ts)) ->
  exists i d e, nth_error ts i = Some (Done (Wrapped d e)) /\ k = dl_key d.
Proof.
  unfold failed_keys, done_results. intros H.
  apply in_flat_map in H. destruct H as [r [Hr Hk]].
  destruct r as [d|d e|e]; simpl in Hk; try contradiction.
  destruct Hk as [<-|[]].
  apply in_flat_map in Hr. destruct Hr as [t [Ht Hr]].
  destruct t; simpl in Hr; try contradiction. destruct Hr as [->|[]].
  apply In_nth_error in Ht. destruct Ht as [i Hi].
  exists i, d, e. split; [exact Hi|reflexivity].
Qed.

(** C3 (as the code does it): a batch that runs to its end handles the
    failures only once every task is done.  Each failed asset is then
    deleted from its owner under [ErrorStrategy.DELETE] and left as it was
    before the batch under [ErrorStrategy.KEEP], whether [warn] is set or
    not; with [warn] every failure becomes a warning and nothing is raised,
    without it all failures are raised together in one [DownloadError]. *)
Theorem failures_handled_after_settling (env : Env) (config : Config) (n : nat)
  (dls : list Download) (sched : list Event) (w : World) (r : result unit) (ws : list Error)
  (b : Batch)
  (Hdk : NoDup (map dl_key dls)) (Hok : NoDup (map fst (assets (owner w))))
  (Hrun : downloads_download env config n dls sched w = Finished r ws b) :
  (forall t, In t (tstates b) -> is_done t = true)
  /\ ws = (if warn config then failures (done_results (tstates b)) else [])
  /\ r = (if warn config then Ok tt
          else match failures (done_results (tstates b)) with
               | [] => Ok tt
               | es => Err (DownloadError es)
               end)
  /\ (error_strategy config = DELETE -> forall k, In k (failed_keys (done_results (tstates b))) ->
      lookup k (assets (owner (world b))) = None)
  /\ (error_strategy config = KEEP -> forall k, In k (failed_keys (done_results (tstates b))) ->
      lookup k (assets (owner (world b))) = lookup k (assets (owner w))).
Proof.
  pose proof (run_inv env config n dls w sched (init_batch n dls w) (init_inv config n dls w)) as R.
  unfold downloads_download in Hrun. rewrite Hrun in R.
  destruct R as [b0 [I0 [Hs Hf]]].
  pose proof (finish_spec config b0) as Hf'.
  pose proof (handle_results_spec config (done_results (tstates b0)) (owner (world b0))) as H.
  destruct (handle_results _ _ _) as [[o' ws'] es]. rewrite Hf' in Hf.
  injection Hf as Hr Hws <-. subst r ws. simpl.
  destruct H as [Hws [Hes [Hkeep [_ Hdel]]]].
  split; [|split; [|split; [|split]]].
  - exact (settled_all_done b0 Hs).
  - exact Hws.
  - rewrite Hes. destruct (warn config); [reflexivity|].
    destruct (failures _); reflexivity.
  - intros Hd k Hk. apply (Hdel Hd); [|exact Hk].
    rewrite (inv_keys _ _ _ _ _ I0). exact Hok.
  - intros Hk k Hin. rewrite (Hkeep Hk).
    destruct (in_failed_keys _ _ Hin) as [i [d [e [Hi ->]]]].
    apply (inv_untouched _ _ _ _ _ I0 Hdk i d).
    + exact (inv_wrapped _ _ _ _ _ I0 i d e Hi).
    + intros d' E. congruence.
Qed.

(** *** Concrete runs *)

(** An item with a reachable asset and a missing one. *)
Definition ex_two_owner : Owner :=
  mkOwner "item" None
    [("data", ex_asset "https://example.com/a.tif");
     ("missing", ex_asset "https://example.com/missing.tif")].

Definition ex_two_downloads : list Download :=
  [mkDownload "data" (ex_asset "https://example.com/a.tif") "/out/a.tif";
   mkDownload "missing" (ex_asset "https://example.com/missing.tif") "/out/missing.tif"].

Definition ex_fail_fast_config : Config :=
  mkConfig [] FILE_NAME false true DELETE [] [] true true false None.

Example ex_two_downloads_planned :
  download_owner ex_env default_config 1 "/out" None false [] (ex_world ex_two_owner)
  = Ran (Blocked (init_batch 1 ex_two_downloads (ex_world ex_two_owner))).
Proof. vm_compute. reflexivity. Qed.

(** With [fail_fast], the missing asset fails while the other task waits for
    the single slot: the batch is aborted with the 404 and the waiting task
    is cancelled. *)
Example fail_fast_aborts_example :
  exists b,
    downloads_download ex_env ex_fail_fast_config 1 ex_two_downloads
      [Acquire 1; Complete 1; Acquire 0; Wake] (ex_world ex_two_owner)
    = Aborted (ClientError "404 Not Found") b
    /\ tstates b = [Cancelled; Done (Raised (ClientError "404 Not Found"))]
    /\ sem b = 1.
Proof. eexists. split; [vm_compute; reflexivity|]. split; reflexivity. Qed.

(** C3 as stated fails: without [warn] (the claim's FAIL policy) and with
    the default [ErrorStrategy.DELETE], the failed asset is removed from the
    owner and the batch raises a [DownloadError]. *)
Lemma fail_policy_still_deletes :
  exists b,
    downloads_download ex_env default_config 2 ex_two_downloads
      [Acquire 0; Acquire 1; Complete 0; Complete 1] (ex_world ex_two_owner)
    = Finished (Err (DownloadError [ClientError "404 Not Found"])) [] b
    /\ warn default_config = false
    /\ lookup "missing" (assets ex_two_owner) <> None
    /\ lookup "missing" (assets (owner (world b))) = None.
Proof.
  eexists. split; [vm_compute; reflexivity|].
  split; [reflexivity|]. split; [discriminate|reflexivity].
Qed.

Lemma failures_handled_after_settling_witness :
  match downloads_download ex_env default_config 2 ex_two_downloads
          [Acquire 0; Acquire 1; Complete 0; Complete 1] (ex_world ex_two_owner) with
  | Finished r ws b => lookup "missing" (assets (owner (world b))) = None
                       /\ r = Err (DownloadError [ClientError "404 Not Found"])
  | _ => False
  end.
Proof.
  destruct (downloads_download ex_env default_config 2 ex_two_downloads
              [Acquire 0; Acquire 1; Complete 0; Complete 1] (ex_world ex_two_owner))
    as [r ws b|e b|b] eqn:E; [|vm_compute in E; discriminate..].
  assert (Hdk : NoDup (map dl_key ex_two_downloads)).
  { constructor; [simpl; intros [H|[]]; discriminate|constructor; [intros []|constructor]]. }
  assert (Hok : NoDup (map fst (assets (owner (ex_world ex_two_owner))))).
  { constructor; [simpl; intros [H|[]]; discriminate|constructor; [intros []|constructor]]. }
  destruct (failures_handled_after_settling ex_env default_config 2 ex_two_downloads
              [Acquire 0; Acquire 1; Complete 0; Complete 1] (ex_world ex_two_owner) r ws b
              Hdk Hok E) as [_ [_ [Hr [Hdel _]]]].
  vm_compute in E. injection E as <- <- <-.
  split.
  - apply Hdel; [reflexivity|]. vm_compute. left. reflexivity.
  - exact Hr.
Defined.

(** * Further properties of the code *)

(** ** Planning the downloads of an owner ([Downloads.add]) *)

Lemma add_loop_spec (config : Config) (root : string) (l : list (string * Asset)) :
  forall seen, NoDup seen ->
  match add_loop config root seen l with
  | Ok (kept, dls) =>
      NoDup (List.app seen (in_scope_names config l))
      /\ kept = scoped config l
      /\ map (fun d => (dl_key d, dl_asset d, dl_path d)) dls
         = map (fun '(k, a) => (k, a, path_join root (asset_file_name config k a))) (scoped config l)
  | Err e =>
      ~ NoDup (List.app seen (in_scope_names config l))
      /\ exists names, e = AssetOverwriteError names
  end.
Proof.
  unfold scoped, in_scope_names.
  induction l as [|[k a] l IH]; intros seen Hseen; simpl.
  - rewrite app_nil_r. auto.
  - destruct (in_scope config k) eqn:Hk; simpl.
    + destruct (mem (asset_file_name config k a) seen) eqn:Hm.
      * split; [|eexists; reflexivity].
        intros Hnd. apply mem_In in Hm. apply NoDup_remove_2 in Hnd.
        apply Hnd. apply in_or_app. left. exact Hm.
      * assert (Hseen' : NoDup (List.app seen [asset_file_name config k a])).
        { apply NoDup_app; [exact Hseen|constructor; [intros []|constructor]|].
          intros x Hx [Hy|[]]. subst x. apply mem_In in Hx. congruence. }
        specialize (IH _ Hseen'). rewrite <- app_assoc in IH. simpl in IH.
        destruct (add_loop config root _ l) as [[kept dls]|e]; simpl.
        -- destruct IH as [H1 [H2 H3]]. split; [exact H1|]. split; [rewrite H2; reflexivity|].
           simpl. rewrite H3. reflexivity.
        -- exact IH.
    + exact (IH seen Hseen).
Qed.

Lemma make_asset_hrefs_absolute_facts (o : Owner) (cwd : string) :
  ((exists e, make_asset_hrefs_absolute o cwd = Err e) <->
   self_href o = None /\ Exists (fun p => is_absolute_href (href (snd p)) = false) (assets o))
  /\ match make_asset_hrefs_absolute o cwd with
     | Ok o1 =>
         owner_id o1 = owner_id o /\ self_href o1 = self_href o
         /\ Forall2 (fun p p' =>
              fst p' = fst p /\ alternate (snd p') = alternate (snd p)
              /\ (is_absolute_href (href (snd p)) = true -> snd p' = snd p)
              /\ (is_absolute_href (href (snd p)) = false -> exists s,
                    self_href o = Some s /\ href (snd p') = make_absolute_href (href (snd p)) (Some s) cwd))
              (assets o) (assets o1)
     | Err e => e = STACError "Cannot make asset HREFs absolute if no self_href is set."
     end.
Proof.
  unfold make_asset_hrefs_absolute.
  generalize (assets o) as l.
  intros l. induction l as [|[k a] l IH]; simpl.
  - split; [split; [intros [e E]; discriminate|intros [_ H]; inversion H]|].
    repeat split; constructor.
  - destruct (is_absolute_href (href a)) eqn:Ha.
    + destruct IH as [[IH1 IH2] IH3].
      destruct ((fix go (l0 : list (string * Asset)) : result (list (string * Asset)) := _) l)
        as [l'|e] eqn:E; simpl in *.
      * split.
        -- split; [intros [e' H]; discriminate|].
           intros [Hs Hex]. inversion Hex as [? ? Hx|? ? Hx]; subst.
           ++ simpl in Hx. congruence.
           ++ destruct (IH2 (conj Hs Hx)) as [e' H']. discriminate.
        -- destruct IH3 as [? [? IH3]]. repeat split; auto. constructor; [|exact IH3].
           simpl. repeat split; auto. congruence.
      * split; [|exact IH3]. split.
        -- intros _. destruct IH1 as [Hs Hx]; [eexists; reflexivity|]. split; [exact Hs|right; exact Hx].
        -- intros _. eexists; reflexivity.
    + destruct (self_href o) as [s|] eqn:Hs; simpl.
      * destruct IH as [[IH1 IH2] IH3].
        destruct ((fix go (l0 : list (string * Asset)) : result (list (string * Asset)) := _) l)
          as [l'|e] eqn:E; simpl in *.
        -- split; [split; [intros [e' H]; discriminate|intros [H _]; discriminate]|].
           destruct IH3 as [? [? IH3]]. repeat split; auto. constructor; [|exact IH3].
           simpl. repeat split; auto; [congruence|]. intros _. exists s. split; reflexivity.
        -- split; [|exact IH3]. split; [intros _|intros [H _]; discriminate].
           destruct IH1 as [H _]; [eexists; reflexivity|]. discriminate.
      * split; [|reflexivity]. split; [intros _; split; [reflexivity|left; exact Ha]|].
        intros _. eexists; reflexivity.
Qed.

(** [make_asset_hrefs_absolute] fails exactly when the owner has no self
    href and some asset href is relative, with the [STACError] of the code;
    otherwise it keeps the owner's id and self href, the asset keys and
    their order, the alternates and the absolute hrefs, and resolves each
    relative href against the self href. *)
Theorem make_asset_hrefs_absolute_spec (o : Owner) (cwd : string) :
  ((exists e, make_asset_hrefs_absolute o cwd = Err e) <->
   self_href o = None /\ Exists (fun p => is_absolute_href (href (snd p)) = false) (assets o))
  /\ match make_asset_hrefs_absolute o cwd with
     | Ok o1 =>
         owner_id o1 = owner_id o /\ self_href o1 = self_href o
         /\ Forall2 (fun p p' =>
              fst p' = fst p /\ alternate (snd p') = alternate (snd p)
              /\ (is_absolute_href (href (snd p)) = true -> snd p' = snd p)
              /\ (is_absolute_href (href (snd p)) = false -> exists s,
                    self_href o = Some s /\ href (snd p') = make_absolute_href (href (snd p)) (Some s) cwd))
              (assets o) (assets o1)
     | Err e => e = STACError "Cannot make asset HREFs absolute if no self_href is set."
     end.
Proof. exact (make_asset_hrefs_absolute_facts o cwd). Qed.

(** [make_asset_hrefs_relative] fails exactly when the owner has no self
    href and some asset href is absolute, with the [STACError] of the code;
    otherwise it keeps the owner's id and self href, the asset keys and
    their order, the alternates and the relative hrefs, and passes each
    absolute href through [make_relative_href] against the self href. *)
Theorem make_asset_hrefs_relative_spec (make_relative_href : string -> string -> string)
  (o : Owner) :
  ((exists e, make_asset_hrefs_relative make_relative_href o = Err e) <->
   self_href o = None /\ Exists (fun p => is_absolute_href (href (snd p)) = true) (assets o))
  /\ match make_asset_hrefs_relative make_relative_href o with
     | Ok o1 =>
         owner_id o1 = owner_id o /\ self_href o1 = self_href o
         /\ Forall2 (fun p p' =>
              fst p' = fst p /\ alternate (snd p') = alternate (snd p)
              /\ (is_absolute_href (href (snd p)) = false -> snd p' = snd p)
              /\ (is_absolute_href (href (snd p)) = true -> exists s,
                    self_href o = Some s /\ href (snd p') = make_relative_href (href (snd p)) s))
              (assets o) (assets o1)
     | Err e => e = STACError "Cannot make asset HREFs relative if no self_href is set."
     end.
Proof.
  unfold make_asset_hrefs_relative.
  generalize (assets o) as l.
  intros l. induction l as [|[k a] l IH]; simpl.
  - split; [split; [intros [e E]; discriminate|intros [_ H]; inversion H]|].
    repeat split; constructor.
  - destruct (is_absolute_href (href a)) eqn:Ha.
    + destruct (self_href o) as [s|] eqn:Hs; simpl.
      * destruct IH as [[IH1 IH2] IH3].
        destruct ((fix go (l0 : list (string * Asset)) : result (list (string * Asset)) := _) l)
          as [l'|e] eqn:E; simpl in *.
        -- split; [split; [intros [e' H]; discriminate|intros [H _]; discriminate]|].
           destruct IH3 as [? [? IH3]]. repeat split; auto. constructor; [|exact IH3].
           simpl. repeat split; auto; [congruence|]. intros _. exists s. split; reflexivity.
        -- split; [|exact IH3]. split; [intros _|intros [H _]; discriminate].
           destruct IH1 as [H _]; [eexists; reflexivity|]. discriminate.
      * split; [|reflexivity]. split; [intros _; split; [reflexivity|left; exact Ha]|].
        intros _. eexists; reflexivity.
    + destruct IH as [[IH1 IH2] IH3].
      destruct ((fix go (l0 : list (string * Asset)) : result (list (string * Asset)) := _) l)
        as [l'|e] eqn:E; simpl in *.
      * split.
        -- split; [intros [e' H]; discriminate|].
           intros [Hs Hex]. inversion Hex as [? ? Hx|? ? Hx]; subst.
           ++ simpl in Hx. congruence.
           ++ destruct (IH2 (conj Hs Hx)) as [e' H']. discriminate.
        -- destruct IH3 as [? [? IH3]]. repeat split; auto. constructor; [|exact IH3].
           simpl. repeat split; auto. congruence.
      * split; [|exact IH3]. split.
        -- intros _. destruct IH1 as [Hs Hx]; [eexists; reflexivity|]. split; [exact Hs|right; exact Hx].
        -- intros _. eexists; reflexivity.
Qed.

Lemma in_scope_spec (config : Config) (k : string) :
  in_scope config k = true <->
  (include config = [] \/ In k (include config)) /\ ~ In k (exclude config).
Proof.
  unfold in_scope. rewrite andb_true_iff, !orb_true_iff, !negb_true_iff.
  assert (Hm : forall l, mem k l = false <-> ~ In k l).
  { intros l. rewrite <- mem_In. destruct (mem k l); split; congruence. }
  rewrite Hm, mem_In.
  destruct (include config) as [|i is]; destruct (exclude config) as [|x xs]; simpl;
    intuition congruence.
Qed.

Lemma Forall2_keys (R : string * Asset -> string * Asset -> Prop) (l l' : list (string * Asset)) :
  Forall2 (fun p p' => fst p' = fst p /\ R p p') l l' -> map fst l' = map fst l.
Proof.
  induction 1 as [|p p' l l' [H _] _ IH]; simpl; [reflexivity|]. rewrite H, IH. reflexivity.
Qed.

Lemma make_asset_hrefs_absolute_keys (o o1 : Owner) (cwd : string) :
  make_asset_hrefs_absolute o cwd = Ok o1 ->
  map fst (assets o1) = map fst (assets o) /\ owner_id o1 = owner_id o.
Proof.
  intros H. pose proof (proj2 (make_asset_hrefs_absolute_facts o cwd)) as S.
  rewrite H in S. destruct S as [Hid [_ HF]]. split; [|exact Hid].
  eapply Forall2_keys. exact HF.
Qed.

Lemma add_unfold (config : Config) (o : Owner) (root : string) (file_name : option string)
  (keep : bool) (cwd : string) (o' : Owner) (dls : list Download) :
  add config o root file_name keep cwd = Ok (o', dls) ->
  exists o1 kept,
    make_asset_hrefs_absolute o cwd = Ok o1
    /\ add_loop config root [] (assets o1) = Ok (kept, dls)
    /\ o' = (let o2 := set_self_href o1 (match file_name with
                                         | Some f => if String.eqb f "" then None
                                                     else Some (path_join root f)
                                         | None => None
                                         end) in
             if keep then o2 else set_assets o2 kept).
Proof.
  unfold add. destruct (make_asset_hrefs_absolute o cwd) as [o1|e]; simpl; [|discriminate].
  destruct (add_loop config root [] (assets o1)) as [[kept dls']|e] eqn:E; simpl; [|discriminate].
  intros H. injection H as <- <-. exists o1, kept. auto.
Qed.

(** [Downloads.add] succeeds exactly when the file names of the in-scope
    assets are pairwise distinct; otherwise it raises
    [AssetOverwriteError]. *)
Theorem add_succeeds_iff_distinct_names (config : Config) (o o1 : Owner) (root : string)
  (file_name : option string) (keep : bool) (cwd : string)
  (Habs : make_asset_hrefs_absolute o cwd = Ok o1) :
  ((exists o' dls, add config o root file_name keep cwd = Ok (o', dls))
   <-> NoDup (in_scope_names config (assets o1)))
  /\ (forall e, add config o root file_name keep cwd = Err e ->
      exists names, e = AssetOverwriteError names).
Proof.
  pose proof (add_loop_spec config root (assets o1) [] (NoDup_nil _)) as S.
  unfold add. rewrite Habs. simpl.
  destruct (add_loop config root [] (assets o1)) as [[kept dls]|e]; simpl in *.
  - destruct S as [S _]. split; [split; [intros _; exact S|intros _; eexists _, _; reflexivity]|].
    intros e H. discriminate.
  - destruct S as [S1 S2]. split; [split; [intros [o' [dls H]]; discriminate|intros H; contradiction]|].
    intros e' H. injection H as <-. exact S2.
Qed.

Lemma add_plan_facts (config : Config) (o o1 o' : Owner) (root : string)
  (file_name : option string) (keep : bool) (cwd : string) (dls : list Download)
  (Habs : make_asset_hrefs_absolute o cwd = Ok o1)
  (Hadd : add config o root file_name keep cwd = Ok (o', dls)) :
  map (fun d => (dl_key d, dl_asset d, dl_path d)) dls
    = map (fun '(k, a) => (k, a, path_join root (asset_file_name config k a)))
          (scoped config (assets o1))
  /\ assets o' = (if keep then assets o1 else scoped config (assets o1))
  /\ self_href o' = match file_name with
                    | Some f => if String.eqb f "" then None else Some (path_join root f)
                    | None => None
                    end
  /\ owner_id o' = owner_id o.
Proof.
  destruct (add_unfold _ _ _ _ _ _ _ _ Hadd) as [o1' [kept [Habs' [Hloop ->]]]].
  rewrite Habs in Habs'. injection Habs' as <-.
  pose proof (add_loop_spec config root (assets o1) [] (NoDup_nil _)) as S.
  rewrite Hloop in S. destruct S as [_ [Hk Hd]].
  destruct (make_asset_hrefs_absolute_keys o o1 cwd Habs) as [_ Hid].
  split; [exact Hd|]. split; [destruct keep; simpl; [reflexivity|exact Hk]|].
  split; destruct keep; simpl; auto.
Qed.

(** The plan made by [Downloads.add]: one download per in-scope asset, in
    the order of the asset dict, holding the owner's asset object and the
    path [root / file name]; the owner keeps only those assets unless
    [keep_non_downloaded] is set, and keeps its id. *)
Theorem add_plan (config : Config) (o o1 o' : Owner) (root : string)
  (file_name : option string) (keep : bool) (cwd : string) (dls : list Download)
  (Habs : make_asset_hrefs_absolute o cwd = Ok o1)
  (Hadd : add config o root file_name keep cwd = Ok (o', dls)) :
  map (fun d => (dl_key d, dl_asset d, dl_path d)) dls
    = map (fun '(k, a) => (k, a, path_join root (asset_file_name config k a)))
          (scoped config (assets o1))
  /\ assets o' = (if keep then assets o1 else scoped config (assets o1))
  /\ owner_id o' = owner_id o.
Proof.
  destruct (add_plan_facts config o o1 o' root file_name keep cwd dls Habs Hadd)
    as [H1 [H2 [_ H4]]].
  split; [exact H1|split; [exact H2|exact H4]].
Qed.

(** The keys downloaded by [Downloads.add] are the owner's keys that pass
    the include and exclude lists; without [keep_non_downloaded] they are
    then the only keys of the owner, in the same order, and with it the
    owner keeps all its keys. *)
Theorem add_download_keys (config : Config) (o o' : Owner) (root : string)
  (file_name : option string) (keep : bool) (cwd : string) (dls : list Download)
  (Hadd : add config o root file_name keep cwd = Ok (o', dls)) :
  (forall k, In k (map dl_key dls) <->
     In k (map fst (assets o))
     /\ (include config = [] \/ In k (include config)) /\ ~ In k (exclude config))
  /\ (keep = false -> map fst (assets o') = map dl_key dls)
  /\ (keep = true -> map fst (assets o') = map fst (assets o)).
Proof.
  destruct (add_unfold _ _ _ _ _ _ _ _ Hadd) as [o1 [kept [Habs [Hloop Ho']]]].
  destruct (add_plan_facts config o o1 o' root file_name keep cwd dls Habs Hadd) as [Hd [Ha _]].
  destruct (make_asset_hrefs_absolute_keys o o1 cwd Habs) as [Hkeys _].
  assert (Hdk : map dl_key dls = map fst (scoped config (assets o1))).
  { apply (f_equal (map (fun x => fst (fst x)))) in Hd. rewrite !map_map in Hd.
    transitivity (map (fun x => fst (fst (dl_key x, dl_asset x, dl_path x))) dls); [reflexivity|].
    rewrite Hd. apply map_ext. intros [k a]. reflexivity. }
  split; [|split].
  - intros k. rewrite Hdk, <- Hkeys, <- in_scope_spec. unfold scoped.
    rewrite !in_map_iff. split.
    + intros [[k' a] [Hk Hin]]. simpl in Hk. subst k'. apply filter_In in Hin.
      destruct Hin as [Hin Hs]. split; [exists (k, a); split; [reflexivity|exact Hin]|exact Hs].
    + intros [[[k' a] [Hk Hin]] Hs]. simpl in Hk. subst k'. exists (k, a).
      split; [reflexivity|]. apply filter_In. split; [exact Hin|exact Hs].
  - intros ->. rewrite Ha, Hdk. reflexivity.
  - intros ->. rewrite Ha. exact Hkeys.
Qed.

(** ** Writing a download to disk ([Client.download_href], [download_asset]) *)








Lemma put_msg_files (m : Message) (w : World) :
  files (put_msg m w) = files w /\ net (put_msg m w) = net w /\ dirs (put_msg m w) = dirs w
  /\ owner (put_msg m w) = owner w.
Proof. repeat split. Qed.




(** ** Resolving hrefs *)

Lemma pick_alternate_none (names : list string) (alt : list (string * list (string * string)))
  (start : option string) (cwd : string) :
  Forall (fun m => lookup m alt = None) names -> pick_alternate names alt start cwd = None.
Proof.
  induction 1 as [|m names Hm _ IH]; simpl; [reflexivity|]. rewrite Hm. exact IH.
Qed.

(** When none of the preferred alternate names is a key of the asset's
    alternate dict (in particular when the asset has no alternate dict),
    [get_absolute_asset_href] falls back to the asset's own absolute href:
    the href itself when it is absolute, nothing when it is relative and
    the owner has no self href. *)
Theorem get_absolute_asset_href_fallback (asset : Asset) (names : list string)
  (start : option string) (cwd : string)
  (Hnone : match alternate asset with
           | Some (AltDict d) => Forall (fun m => lookup m d = None) names
           | _ => True
           end) :
  get_absolute_asset_href asset names start cwd = Ok (asset_get_absolute_href asset start cwd)
  /\ (is_absolute_href (href asset) = true ->
      get_absolute_asset_href asset names start cwd = Ok (Some (href asset)))
  /\ (is_absolute_href (href asset) = false -> start = None ->
      get_absolute_asset_href asset names start cwd = Ok None).
Proof.
  assert (H : get_absolute_asset_href asset names start cwd
              = Ok (asset_get_absolute_href asset start cwd)).
  { unfold get_absolute_asset_href.
    destruct (alternate asset) as [[d|]|]; simpl; try reflexivity.
    destruct (truthy d && truthy names); [|reflexivity].
    rewrite (pick_alternate_none names d start cwd Hnone). reflexivity. }
  split; [exact H|]. rewrite H. unfold asset_get_absolute_href. split.
  - intros Ha. rewrite Ha. reflexivity.
  - intros Ha ->. rewrite Ha. reflexivity.
Qed.





(** ** Whole batches *)

Lemma filter_filter' {A} (f g : A -> bool) (l : list A) :
  filter f (filter g l) = filter (fun x => g x && f x) l.
Proof.
  induction l as [|x l IH]; simpl; [reflexivity|].
  destruct (g x); simpl; [destruct (f x); simpl; rewrite IH; reflexivity|exact IH].
Qed.

Lemma keys_remove_key_filter {A} (k : string) (l : list (string * A)) :
  NoDup (map fst l) -> map fst (remove_key k l) = filter (fun k' => negb (String.eqb k' k)) (map fst l).
Proof.
  induction l as [|[k0 v] l IH]; simpl; intros Hnd; [reflexivity|].
  inversion Hnd as [|? ? Hnotin Hnd']; subst.
  destruct (String.eqb k k0) eqn:E.
  - apply String.eqb_eq in E. subst k0. rewrite String.eqb_refl. simpl.
    symmetry. apply forallb_filter_id. apply forallb_forall. intros x Hx.
    destruct (String.eqb x k) eqn:Ex; [|reflexivity].
    apply String.eqb_eq in Ex. subst. contradiction.
  - rewrite String.eqb_sym, E. simpl. rewrite IH by exact Hnd'. reflexivity.
Qed.

Lemma handle_results_keys (config : Config) (rs : list TaskResult) :
  forall o, NoDup (map fst (assets o)) ->
  let '(o', _, _) := handle_results config rs o in
  map fst (assets o') =
    match error_strategy config with
    | KEEP => map fst (assets o)
    | DELETE => filter (fun k => negb (mem k (failed_keys rs))) (map fst (assets o))
    end.
Proof.
  induction rs as [|r rs IH]; intros o Hnd; simpl.
  - destruct (error_strategy config); [|reflexivity].
    symmetry. apply forallb_filter_id. apply forallb_forall. reflexivity.
  - destruct r as [d|d e|e]; simpl; try exact (IH o Hnd).
    set (o1 := match error_strategy config with
               | DELETE => set_assets o (remove_key (dl_key d) (assets o))
               | KEEP => o
               end).
    assert (Hnd1 : NoDup (map fst (assets o1))).
    { unfold o1. destruct (error_strategy config); [apply NoDup_remove_key|]; exact Hnd. }
    specialize (IH o1 Hnd1). destruct (handle_results config rs o1) as [[o2 ws] es].
    destruct (warn config); simpl; rewrite IH; unfold o1;
      (destruct (error_strategy config) eqn:Es; [|reflexivity]); simpl;
      rewrite keys_remove_key_filter by exact Hnd; rewrite filter_filter';
      apply filter_ext; intros k; unfold mem; simpl; rewrite negb_orb; reflexivity.
Qed.

(** The owner's keys after a batch: a batch that finishes removes, under
    [ErrorStrategy.DELETE], exactly the keys of the failed downloads (the
    others stay, in order), and removes nothing under [KEEP]; a batch
    aborted by fail-fast removes nothing. *)
Theorem batch_asset_keys (env : Env) (config : Config) (n : nat) (dls : list Download)
  (sched : list Event) (w : World) (Hok : NoDup (map fst (assets (owner w)))) :
  (forall r ws b, downloads_download env config n dls sched w = Finished r ws b ->
     map fst (assets (owner (world b))) =
       match error_strategy config with
       | KEEP => map fst (assets (owner w))
       | DELETE => filter (fun k => negb (mem k (failed_keys (done_results (tstates b)))))
                          (map fst (assets (owner w)))
       end)
  /\ (forall e b, downloads_download env config n dls sched w = Aborted e b ->
      map fst (assets (owner (world b))) = map fst (assets (owner w))).
Proof.
  pose proof (run_inv env config n dls w sched (init_batch n dls w) (init_inv config n dls w)) as R.
  unfold downloads_download. split.
  - intros r ws b E. rewrite E in R. destruct R as [b0 [I0 [_ Hf]]].
    pose proof (finish_spec config b0) as Hf'.
    pose proof (handle_results_keys config (done_results (tstates b0)) (owner (world b0))) as K.
    rewrite (inv_keys _ _ _ _ _ I0) in K. specialize (K Hok).
    rewrite <- (inv_keys _ _ _ _ _ I0) in K.
    destruct (handle_results _ _ _) as [[o' ws'] es]. rewrite Hf' in Hf.
    injection Hf as _ _ <-. simpl. rewrite K, (inv_keys _ _ _ _ _ I0). reflexivity.
  - intros e b E. rewrite E in R. destruct R as [b0 [I0 [_ ->]]].
    exact (inv_keys _ _ _ _ _ I0).
Qed.

Lemma download_asset_request (env : Env) (config : Config) (key : string) (a : Asset)
  (path : string) (w : World) :
  self_href (owner (snd (download_asset env config key a path w))) = self_href (owner w)
  /\ (net (snd (download_asset env config key a path w)) = net w
      \/ exists h, net (snd (download_asset env config key a path w)) = List.app (net w) [h]
           /\ get_absolute_asset_href a (alternate_assets config) (self_href (owner w)) (cwd env)
              = Ok (Some h)).
Proof.
  unfold download_asset.
  destruct (mem (dirname path) (dirs w)); [|destruct (make_directory config)]; simpl;
    try (split; [reflexivity|left; reflexivity]);
    destruct (get_absolute_asset_href a (alternate_assets config) (self_href (owner w)) (cwd env))
      as [[h|]|e] eqn:Eh; simpl;
    try (split; [reflexivity|left; reflexivity]);
    destruct (get_client_class config h) as [c|e]; simpl;
    try (split; [reflexivity|left; reflexivity]);
    match goal with
    | |- context [download_href env c h path ?cl ?w1] =>
        pose proof (download_href_owner env c h path cl w1) as [Ho Hn];
        destruct (download_href env c h path cl w1) as [[[]|e'] w2]
    end; simpl in *; rewrite Ho; (split; [reflexivity|right; exists h; split; [exact Hn|reflexivity]]).
Qed.

Lemma download_one_request (env : Env) (config : Config) (d : Download) (w : World) :
  self_href (owner (snd (download_one env config d w))) = self_href (owner w)
  /\ (net (snd (download_one env config d w)) = net w
      \/ exists h, net (snd (download_one env config d w)) = List.app (net w) [h]
           /\ get_absolute_asset_href (dl_asset d) (alternate_assets config)
                (self_href (owner w)) (cwd env) = Ok (Some h)).
Proof.
  unfold download_one.
  destruct (negb (path_exists w (dl_path d)) || overwrite config).
  - pose proof (download_asset_request env config (dl_key d) (dl_asset d) (dl_path d) w) as H.
    destruct (download_asset env config (dl_key d) (dl_asset d) (dl_path d) w) as [[[]|e] w2];
      simpl in *; [|destruct (fail_fast config)]; exact H.
  - split; [reflexivity|left; reflexivity].
Qed.

(** Whatever the interleaving of the tasks, a batch only ever appends
    requests to the log, and each request belongs to its own planned
    download: no download is requested twice, and each request is for
    the href that download's asset resolves to. *)
Theorem batch_requests_per_download (env : Env) (config : Config) (n : nat)
  (dls : list Download) (sched : list Event) (w : World) :
  exists reqs : list (nat * string),
    net (world (outcome_batch (downloads_download env config n dls sched w)))
      = List.app (net w) (map snd reqs)
    /\ NoDup (map fst reqs)
    /\ (forall i h, In (i, h) reqs -> exists d, nth_error dls i = Some d
          /\ get_absolute_asset_href (dl_asset d) (alternate_assets config)
               (self_href (owner w)) (cwd env) = Ok (Some h)).
Proof.
  set (Q := fun (reqs : list (nat * string)) =>
              NoDup (map fst reqs)
              /\ (forall i h, In (i, h) reqs -> exists d, nth_error dls i = Some d
                    /\ get_absolute_asset_href (dl_asset d) (alternate_assets config)
                         (self_href (owner w)) (cwd env) = Ok (Some h))).
  set (P := fun b => self_href (owner (world b)) = self_href (owner w)
              /\ exists reqs, net (world b) = List.app (net w) (map snd reqs) /\ Q reqs
                  /\ (forall i, In i (map fst reqs) -> In i (completed b))).
  assert (Pacq : forall i b, Inv config n dls w b -> P b -> P (acquire i b)).
  { intros i b _ Pb. unfold acquire.
    destruct (nth_error (tstates b) i) as [[]|]; try exact Pb.
    destruct (Nat.ltb 0 (sem b)); exact Pb. }
  assert (Pcomp : forall i b, Inv config n dls w b -> P b -> P (complete env config dls i b)).
  { intros i b I Pb. unfold complete.
    destruct (nth_error (tstates b) i) as [[]|] eqn:Ht; try exact Pb.
    destruct (nth_error dls i) as [d|] eqn:Hd; [|exact Pb].
    destruct Pb as [Hs [reqs [Hx [[Hnd Hres] Hc]]]].
    pose proof (download_one_request env config d (world b)) as [Hs' Hn].
    destruct (download_one env config d (world b)) as [r w'] eqn:E. simpl in *.
    assert (Hi : ~ In i (map fst reqs)).
    { intros Hin. apply Hc, (inv_log _ _ _ _ _ I) in Hin. destruct Hin as [r' Hr']. congruence. }
    unfold P. simpl. split; [rewrite Hs'; exact Hs|].
    destruct Hn as [Hn|[h [Hn Hh]]].
    - exists reqs. split; [rewrite Hn; exact Hx|]. split; [split; [exact Hnd|exact Hres]|].
      intros j Hj. apply in_or_app. left. apply Hc. exact Hj.
    - exists (List.app reqs [(i, h)]). split.
      + rewrite Hn, Hx, map_app, app_assoc. reflexivity.
      + split; [split|].
        * rewrite map_app. apply NoDup_app; [exact Hnd|constructor; [intros []|constructor]|].
          intros j Hj [<-|[]]. exact (Hi Hj).
        * intros j h' Hj. apply in_app_or in Hj. destruct Hj as [Hj|[Hj|[]]].
          -- exact (Hres j h' Hj).
          -- injection Hj as <- <-. exists d. split; [exact Hd|]. rewrite <- Hs. exact Hh.
        * intros j Hj. rewrite map_app in Hj. apply in_app_or in Hj. apply in_or_app.
          destruct Hj as [Hj|Hj]; [left; apply Hc; exact Hj|right; exact Hj]. }
  assert (P0 : P (init_batch n dls w)).
  { split; [reflexivity|]. exists []. split; [rewrite app_nil_r; reflexivity|].
    split; [split; [constructor|intros i h []]|intros i []]. }
  pose proof (run_gen env config n dls w P Pacq Pcomp sched (init_batch n dls w)
                (init_inv config n dls w) P0) as R.
  assert (Hend : forall b, P b -> exists reqs, net (world b) = List.app (net w) (map snd reqs)
                                              /\ Q reqs).
  { intros b [_ [reqs [Hx [Hq _]]]]. exists reqs. split; [exact Hx|exact Hq]. }
  unfold downloads_download.
  destruct (run env config dls sched (init_batch n dls w)) as [r ws b|e b|b]; simpl.
  - destruct R as [b0 [_ [Pb0 [_ Hf]]]].
    pose proof (finish_spec config b0) as Hf'.
    destruct (handle_results _ _ _) as [[o' ws'] es]. rewrite Hf' in Hf.
    injection Hf as _ _ <-. simpl. exact (Hend b0 Pb0).
  - destruct R as [b0 [_ [Pb0 [_ ->]]]]. exact (Hend b0 Pb0).
  - destruct R as [_ Pb]. exact (Hend b Pb).
Qed.

Lemma nothing_in_scope_run (env : Env) (config : Config) (n : nat) (root : string)
  (file_name : option string) (keep : bool) (sched : list Event) (w : World) (o1 : Owner)
  (Hvalid : validate config = Ok tt)
  (Habs : make_asset_hrefs_absolute (owner w) (cwd env) = Ok o1)
  (Hnone : scoped config (assets o1) = []) :
  exists b, download_owner env config n root file_name keep sched w = Ran (Finished (Ok tt) [] b)
            /\ net (world b) = net w /\ files (world b) = files w /\ msgs (world b) = msgs w
            /\ dirs (world b) = dirs w.
Proof.
  pose proof (add_loop_spec config root (assets o1) [] (NoDup_nil _)) as S.
  assert (Hnames : in_scope_names config (assets o1) = []).
  { unfold in_scope_names. fold (scoped config (assets o1)). rewrite Hnone. reflexivity. }
  unfold download_owner, add. rewrite Hvalid, Habs. simpl.
  destruct (add_loop config root [] (assets o1)) as [[kept dls]|e].
  - destruct S as [_ [_ Hd]]. rewrite Hnone in Hd. simpl in Hd.
    apply map_eq_nil in Hd. subst dls. simpl.
    unfold downloads_download.
    destruct sched; simpl; eexists; (split; [reflexivity|repeat split]).
  - destruct S as [S _]. rewrite Hnames in S. exfalso. apply S. constructor.
Qed.

Lemma scoped_nil (config : Config) (l : list (string * Asset)) :
  Forall (fun k => in_scope config k = false) (map fst l) -> scoped config l = [].
Proof.
  induction l as [|[k a] l IH]; simpl; intros H; [reflexivity|].
  inversion H as [|? ? Hk Hl]; subst. unfold scoped. simpl. rewrite Hk. apply IH. exact Hl.
Qed.

(** With a valid config, an owner whose asset hrefs can be made absolute
    (it has a self href, or all its asset hrefs are absolute) and none of
    whose asset keys is in scope is downloaded without a request, a written
    file or a message, and the batch succeeds: no download is planned, and
    no error is raised for the lack of assets. *)
Theorem nothing_in_scope_succeeds (env : Env) (config : Config) (n : nat) (root : string)
  (file_name : option string) (keep : bool) (sched : list Event) (w : World)
  (Hvalid : validate config = Ok tt)
  (Hhref : self_href (owner w) <> None
           \/ Forall (fun p => is_absolute_href (href (snd p)) = true) (assets (owner w)))
  (Hnone : Forall (fun k => in_scope config k = false) (map fst (assets (owner w)))) :
  exists b, download_owner env config n root file_name keep sched w = Ran (Finished (Ok tt) [] b)
            /\ net (world b) = net w /\ files (world b) = files w /\ msgs (world b) = msgs w
            /\ dirs (world b) = dirs w.
Proof.
  destruct (make_asset_hrefs_absolute (owner w) (cwd env)) as [o1|e] eqn:E.
  - apply (nothing_in_scope_run env config n root file_name keep sched w o1 Hvalid E).
    apply scoped_nil. destruct (make_asset_hrefs_absolute_keys _ _ _ E) as [Hk _].
    rewrite Hk. exact Hnone.
  - exfalso. destruct (proj1 (proj1 (make_asset_hrefs_absolute_facts (owner w) (cwd env)))
                        (ex_intro _ e E)) as [Hs Hex].
    destruct Hhref as [Hh|Hall]; [exact (Hh Hs)|].
    rewrite Forall_forall in Hall. apply Exists_exists in Hex. destruct Hex as [x [Hx Hr]].
    rewrite Hall in Hr by exact Hx. discriminate.
Qed.

Lemma repeat_pending_nth (m i : nat) :
  nth_error (repeat Pending m) i = None \/ nth_error (repeat Pending m) i = Some Pending.
Proof.
  revert i. induction m as [|m IH]; intros [|i]; simpl; auto.
Qed.

(** With [max_concurrent_downloads = 0] no task ever gets a slot: whatever
    the schedule, a batch with at least one download never starts a
    download and never ends. *)
Theorem zero_slots_blocked (env : Env) (config : Config) (dls : list Download)
  (sched : list Event) (w : World) (Hne : dls <> []) :
  downloads_download env config 0 dls sched w = Blocked (init_batch 0 dls w).
Proof.
  unfold downloads_download.
  assert (Hs : settled (init_batch 0 dls w) = false).
  { unfold settled, init_batch. simpl. destruct dls; [congruence|reflexivity]. }
  induction sched as [|ev sched IH]; simpl; rewrite Hs; [reflexivity|].
  destruct ev as [i|i|].
  - replace (acquire i (init_batch 0 dls w)) with (init_batch 0 dls w); [exact IH|].
    unfold acquire. simpl.
    destruct (repeat_pending_nth (length dls) i) as [E|E]; rewrite E; reflexivity.
  - replace (complete env config dls i (init_batch 0 dls w)) with (init_batch 0 dls w);
      [exact IH|].
    unfold complete. simpl.
    destruct (repeat_pending_nth (length dls) i) as [E|E]; rewrite E; reflexivity.
  - exact IH.
Qed.

(** ** Running the downloads one after the other *)

Lemma nth_error_mid {A} (pre l : list A) (x : A) :
  nth_error (pre ++ x :: l) (length pre) = Some x.
Proof. induction pre; simpl; auto. Qed.

Lemma set_nth_mid {A} (pre l : list A) (x y : A) :
  set_nth (pre ++ x :: l) (length pre) y = (pre ++ y :: l)%list.
Proof. induction pre as [|z pre IH]; simpl; [reflexivity|]. rewrite IH. reflexivity. Qed.

Lemma run_unfold (env : Env) (config : Config) (dls : list Download) (sched : list Event)
  (b : Batch) :
  run env config dls sched b =
  if settled b then finish config b
  else match sched with
       | [] => Blocked b
       | Acquire i :: sched' => run env config dls sched' (acquire i b)
       | Complete i :: sched' => run env config dls sched' (complete env config dls i b)
       | Wake :: sched' =>
           match gather_error b with
           | Some e => Aborted e (cancel_all b)
           | None => run env config dls sched' b
           end
       end.
Proof. destruct sched; reflexivity. Qed.

Lemma sequential_run (env : Env) (config : Config) (dls : list Download) :
  forall k pre b,
  tstates b = (pre ++ repeat Pending k)%list ->
  Forall (fun t => is_done t = true) pre ->
  1 <= sem b ->
  length pre + k = length dls ->
  (gather_error b = None \/ fail_fast config = true) ->
  match run env config dls
          (List.app (flat_map (fun i => [Acquire i; Complete i]) (seq (length pre) k)) [Wake]) b with
  | Blocked _ => False
  | Aborted _ _ => fail_fast config = true
  | Finished _ _ _ => True
  end.
Proof.
  induction k as [|k IH]; intros pre b Ht Hpre Hsem Hlen Hg.
  - cbn [seq flat_map List.app]. rewrite run_unfold. destruct (settled b) eqn:Hs.
    { unfold finish. destruct (handle_results _ _ _) as [[o' ws] es].
      destruct es; exact I. }
    destruct (gather_error b) as [e|] eqn:Hge.
    + destruct Hg as [Hg|Hg]; [discriminate|exact Hg].
    + rewrite run_unfold, Hs.
      exfalso. unfold settled in Hs. rewrite Hge, Ht, app_nil_r in Hs.
      rewrite Forall_forall in Hpre. rewrite <- forallb_forall in Hpre.
      congruence.
  - cbn [seq flat_map List.app]. rewrite run_unfold. destruct (settled b) eqn:Hs.
    { unfold finish. destruct (handle_results _ _ _) as [[o' ws] es].
      destruct es; exact I. }
    set (p := length pre).
    assert (Hacq : acquire p b =
                   mkBatch (pre ++ Running :: repeat Pending k)%list (pred (sem b)) (world b)
                     (gather_error b) (completed b)).
    { unfold acquire. rewrite Ht. simpl. unfold p. rewrite nth_error_mid.
      destruct (sem b) as [|s]; [lia|]. simpl. rewrite set_nth_mid. reflexivity. }
    rewrite Hacq, run_unfold.
    assert (Hs1 : settled (mkBatch (pre ++ Running :: repeat Pending k)%list (pred (sem b)) (world b)
                     (gather_error b) (completed b)) = false).
    { unfold settled. simpl. destruct (gather_error b); [reflexivity|].
      rewrite forallb_app. simpl. rewrite andb_false_r. reflexivity. }
    rewrite Hs1.
    destruct (nth_error dls p) as [d|] eqn:Hd.
    2:{ exfalso. apply nth_error_None in Hd. unfold p in Hd. lia. }
    assert (Hm : nth_error (pre ++ Running :: repeat Pending k)%list p = Some Running)
      by apply nth_error_mid.
    unfold complete. cbn [tstates]. rewrite Hm, Hd.
    cbn [world sem gather_error completed].
    pose proof (download_one_facts env config d (world b)) as F.
    destruct (download_one env config d (world b)) as [r w'] eqn:Hdo.
    rewrite (set_nth_mid pre (repeat Pending k) Running (Done r) : set_nth _ p _ = _).
    unfold p.
    replace (pre ++ Done r :: repeat Pending k)%list with ((pre ++ [Done r]) ++ repeat Pending k)%list
      by (rewrite <- app_assoc; reflexivity).
    replace (S (length pre)) with (length (pre ++ [Done r]))
      by (rewrite length_app; simpl; lia).
    apply IH.
    + reflexivity.
    + apply Forall_app. split; [exact Hpre|]. constructor; [reflexivity|constructor].
    + simpl. lia.
    + rewrite length_app. simpl. lia.
    + simpl. destruct F as [_ [_ F]].
      destruct (gather_error b) as [e|]; [exact Hg|].
      destruct r as [d'|d' e'|e']; auto. right. apply F.
Qed.

(** With at least one slot, running the downloads one after the other
    never leaves [gather] waiting: the batch ends, and it ends with an abort
    only under [fail_fast]. *)
Theorem one_by_one_terminates (env : Env) (config : Config) (n : nat) (dls : list Download)
  (w : World) (Hn : 1 <= n) :
  match downloads_download env config n dls (one_by_one (length dls)) w with
  | Blocked _ => False
  | Aborted _ _ => fail_fast config = true
  | Finished _ _ _ => True
  end.
Proof.
  unfold downloads_download, one_by_one.
  apply (sequential_run env config dls (length dls) [] (init_batch n dls w));
    simpl; auto.
Qed.

(** ** Instances of the properties above *)


Definition ex_include_other_config : Config :=
  mkConfig [] FILE_NAME false false DELETE [] ["other"] true true false None.


Lemma add_succeeds_iff_distinct_names_witness :
  make_asset_hrefs_absolute ex_two_owner "/work" = Ok ex_two_owner
  /\ exists o' dls, add default_config ex_two_owner "/out" None false "/work" = Ok (o', dls).
Proof.
  assert (H : make_asset_hrefs_absolute ex_two_owner "/work" = Ok ex_two_owner)
    by (vm_compute; reflexivity).
  split; [exact H|].
  apply (proj2 (proj1 (add_succeeds_iff_distinct_names default_config ex_two_owner
                         ex_two_owner "/out" None false "/work" H))).
  vm_compute. constructor; [|constructor; [intros []|constructor]].
  intros [E|[]]. discriminate E.
Defined.

Lemma add_plan_witness :
  map (fun d => (dl_key d, dl_asset d, dl_path d)) ex_two_downloads
    = map (fun '(k, a) => (k, a, path_join "/out" (asset_file_name default_config k a)))
          (scoped default_config (assets ex_two_owner))
  /\ assets ex_two_owner = scoped default_config (assets ex_two_owner).
Proof.
  destruct (add_plan default_config ex_two_owner ex_two_owner ex_two_owner "/out" None false
              "/work" ex_two_downloads ltac:(vm_compute; reflexivity)
              ltac:(vm_compute; reflexivity)) as [H1 [H2 _]].
  split; [exact H1 | exact H2].
Defined.

Lemma add_download_keys_witness :
  add default_config ex_two_owner "/out" None false "/work" = Ok (ex_two_owner, ex_two_downloads)
  /\ map fst (assets ex_two_owner) = map dl_key ex_two_downloads.
Proof.
  assert (H : add default_config ex_two_owner "/out" None false "/work"
              = Ok (ex_two_owner, ex_two_downloads)) by (vm_compute; reflexivity).
  split; [exact H|].
  exact (proj1 (proj2 (add_download_keys default_config ex_two_owner ex_two_owner "/out" None
                          false "/work" ex_two_downloads H)) eq_refl).
Defined.




Lemma get_absolute_asset_href_fallback_witness :
  get_absolute_asset_href (ex_asset "data/a.tif") ["s3"] None "/work" = Ok None.
Proof.
  exact (proj2 (proj2 (get_absolute_asset_href_fallback (ex_asset "data/a.tif") ["s3"] None
                          "/work" I)) ltac:(vm_compute; reflexivity) eq_refl).
Defined.


Lemma batch_asset_keys_witness :
  NoDup (map fst (assets (owner (ex_world ex_two_owner))))
  /\ exists r ws b,
       downloads_download ex_env default_config 1 ex_two_downloads (one_by_one 2)
         (ex_world ex_two_owner) = Finished r ws b
       /\ map fst (assets (owner (world b))) = ["data"].
Proof.
  assert (Hok : NoDup (map fst (assets (owner (ex_world ex_two_owner))))).
  { vm_compute. constructor; [|constructor; [intros []|constructor]].
    intros [E|[]]. discriminate E. }
  split; [exact Hok|].
  destruct (downloads_download ex_env default_config 1 ex_two_downloads (one_by_one 2)
              (ex_world ex_two_owner)) as [r ws b|e b|b] eqn:E;
    [|vm_compute in E; discriminate E|vm_compute in E; discriminate E].
  exists r, ws, b. split; [reflexivity|].
  rewrite (proj1 (batch_asset_keys ex_env default_config 1 ex_two_downloads (one_by_one 2)
                    (ex_world ex_two_owner) Hok) r ws b E).
  vm_compute in E. injection E as _ _ <-. vm_compute. reflexivity.
Defined.

Lemma nothing_in_scope_succeeds_witness :
  exists b, download_owner ex_env ex_include_other_config 2 "/out" None false []
              (ex_world ex_two_owner) = Ran (Finished (Ok tt) [] b)
            /\ net (world b) = [] /\ files (world b) = [] /\ msgs (world b) = Some []
            /\ dirs (world b) = ["/out"].
Proof.
  exact (nothing_in_scope_succeeds ex_env ex_include_other_config 2 "/out" None false []
           (ex_world ex_two_owner) ltac:(vm_compute; reflexivity)
           ltac:(right; repeat constructor) ltac:(repeat constructor)).
Defined.

Lemma zero_slots_blocked_witness :
  downloads_download ex_env default_config 0 ex_two_downloads (one_by_one 2)
    (ex_world ex_two_owner)
  = Blocked (init_batch 0 ex_two_downloads (ex_world ex_two_owner)).
Proof.
  apply zero_slots_blocked. discriminate.
Defined.

Lemma one_by_one_terminates_witness :
  match downloads_download ex_env ex_fail_fast_config 1 ex_two_downloads (one_by_one 2)
          (ex_world ex_two_owner) with
  | Blocked _ => False
  | Aborted _ _ => fail_fast ex_fail_fast_config = true
  | Finished _ _ _ => True
  end.
Proof.
  apply (one_by_one_terminates ex_env ex_fail_fast_config 1 ex_two_downloads
           (ex_world ex_two_owner)).
  lia.
Defined.
